(** * GEOS relate-ng: RelateSegmentString

    A shallow embedding of
    [src/operation/relateng/RelateSegmentString.cpp]: the vertex walk the
    relate engine builds for every line and ring of an operand, its
    neighbour lookup ([prevVertex], [nextVertex]), node-section synthesis
    ([createNodeSection]), intersection ownership ([isContainingSegment])
    and the two normalisation procedures ([orientAndRemoveRepeated],
    [removeRepeated]).

    Conventions.
    - [std::size_t] is a [Z] in [0, 2^64); every [+] and [-] of the source
      on such a value is followed by [size_t], the reduction modulo 2^64.
    - a [CoordinateSequence] is the list of its points.
    - a call either returns ([Ret]) or runs into undefined behaviour
      ([Undefined]): an index outside the sequence, a dangling or null
      sequence pointer.
    - a returned [const CoordinateXY*] is [Some] point or [None] for
      [nullptr].
    - the raw pointer [seq] and the owning [csStore] of the class are kept
      apart, so that re-assigning [csStore] while [seq] still points into it
      leaves [seq] dangling, as it does in C++. *)

From Stdlib Require Import ZArith List Bool Lia Permutation.
Import ListNotations.
Open Scope Z_scope.

(** ** Machine indices *)

Definition SIZE_MAX : Z := 2 ^ 64 - 1.

(** Wrap-around of unsigned 64-bit arithmetic. *)
Definition size_t (z : Z) : Z := z mod 2 ^ 64.

(** Modelled from the spec: the sentinel "unknown index" of the library's
    constants header, which is not part of the sources at hand; it is the
    largest [std::size_t]. *)
Definition INDEX_UNKNOWN : Z := SIZE_MAX.

(** Modelled from the spec: the [Dimension] codes the two factories pass
    (line = 1, area = 2). *)
Module Dimension.
Definition L : Z := 1.
Definition A : Z := 2.
End Dimension.

(** ** Outcome of a call *)

Inductive outcome (A : Type) : Type :=
| Ret (a : A)
| Undefined.
Arguments Ret {A} a.
Arguments Undefined {A}.

Definition obind {A B : Type} (m : outcome A) (k : A -> outcome B) : outcome B :=
  match m with
  | Ret a => k a
  | Undefined => Undefined
  end.

Declare Scope outcome_scope.
Delimit Scope outcome_scope with outcome.
Notation "x <- m ;; k" := (obind m (fun x => k))
  (at level 61, m at next level, right associativity) : outcome_scope.
Open Scope outcome_scope.

(** A procedure that may change the state [S] of the object it is called
    on. *)
Definition stateful (S A : Type) : Type := S -> outcome (A * S).

Definition pret {S A : Type} (a : A) : stateful S A := fun st => Ret (a, st).

Definition pbind {S A B : Type} (m : stateful S A) (k : A -> stateful S B)
  : stateful S B :=
  fun st =>
    match m st with
    | Ret (a, st') => k a st'
    | Undefined => Undefined
    end.

Definition pwhen {S : Type} (b : bool) (m : stateful S unit) : stateful S unit :=
  if b then m else pret tt.

Declare Scope proc_scope.
Delimit Scope proc_scope with proc.
Notation "x <~ m ;; k" := (pbind m (fun x => k))
  (at level 61, m at next level, right associativity) : proc_scope.
Notation "m ;;; k" := (pbind m (fun _ => k))
  (at level 61, right associativity) : proc_scope.
Open Scope proc_scope.

(** References to geometries owned elsewhere ([const Geometry*],
    [const RelateGeometry*]): an identifier, or [None] for [nullptr]. *)
Definition GeometryRef : Type := option Z.

Section Walk.

(** The point type and its 2D comparison live in the geometry model, outside
    this core: they are taken as given.  [equals2D a b] is [a.equals2D(b)]. *)
Variable CoordinateXY : Type.
Variable equals2D : CoordinateXY -> CoordinateXY -> bool.

(** [Orientation::isCCW], computed by the algorithm package from the winding
    of the sequence; taken as given. *)
Variable isCCW : list CoordinateXY -> bool.

Definition CoordinateSequence : Type := list CoordinateXY.

(** *** CoordinateSequence (external collaborator) *)

(** Modelled from the spec: [CoordinateSequence::getSize], the element
    count. *)
Definition getSize (s : CoordinateSequence) : Z := Z.of_nat (length s).

(** Modelled from the spec: indexed coordinate access; an index outside the
    sequence is undefined behaviour. *)
Definition getAt (s : CoordinateSequence) (i : Z) : outcome CoordinateXY :=
  if i <? 0 then Undefined
  else match nth_error s (Z.to_nat i) with
       | Some c => Ret c
       | None => Undefined
       end.

(** Modelled from the spec: [CoordinateSequence::hasRepeatedPoints],
    "whether any two consecutive points are coordinate-equal". *)
Fixpoint hasRepeatedPoints (s : CoordinateSequence) : bool :=
  match s with
  | [] => false
  | p :: r =>
      match r with
      | [] => false
      | q :: _ => equals2D p q || hasRepeatedPoints r
      end
  end.

(** Modelled from the spec: the loop of the remover, appending the points
    of [s] to a sequence whose last point is [last] and skipping a point
    2D-equal to the last one kept. *)
Fixpoint addNoRepeated (last : CoordinateXY) (s : CoordinateSequence)
  : CoordinateSequence :=
  match s with
  | [] => []
  | c :: r =>
      if equals2D last c then addNoRepeated last r
      else c :: addNoRepeated c r
  end.

(** Modelled from the spec: [RepeatedPointRemover::removeRepeatedPoints],
    "a new sequence with consecutive duplicates collapsed". *)
Definition removeRepeatedPoints (s : CoordinateSequence) : CoordinateSequence :=
  match s with
  | [] => []
  | c :: r => c :: addNoRepeated c r
  end.

(** Modelled from the spec: [CoordinateSequence::reverse] (in place) and
    [CoordinateSequence::clone]. *)
Definition reverse (s : CoordinateSequence) : CoordinateSequence := rev s.
Definition clone (s : CoordinateSequence) : CoordinateSequence := s.

(** *** The walk *)

(** Where the raw pointer [seq] of the base class points. *)
Inductive SeqPtr : Type :=
| ToCaller   (* the sequence borrowed from the input geometry *)
| ToStore    (* the sequence owned by [csStore] *)
| Dangling.  (* a sequence [csStore] owned and has released *)

Record RelateSegmentString : Type := mkRelateSegmentString {
  pts : CoordinateSequence;              (* the caller's sequence, never written *)
  csStore : option CoordinateSequence;   (* the unique_ptr; [None] is null *)
  seq : SeqPtr;
  m_isA : bool;
  m_dimension : Z;
  m_id : Z;
  m_ringId : Z;
  m_parentPolygonal : GeometryRef;
  m_inputGeom : GeometryRef
}.

(** Modelled from the spec: the state the constructor leaves behind before
    any normalisation; "construction does not copy the input coordinate
    sequence; it borrows it". *)
Definition borrowed (s : CoordinateSequence) (isA : bool) (dim id ringId : Z)
    (poly parent : GeometryRef) : RelateSegmentString :=
  mkRelateSegmentString s None ToCaller isA dim id ringId poly parent.

(** [*seq]: the active sequence of the walk. *)
Definition activeSeq (ss : RelateSegmentString) : outcome CoordinateSequence :=
  match seq ss with
  | ToCaller => Ret (pts ss)
  | ToStore =>
      match csStore ss with
      | Some s => Ret s
      | None => Undefined
      end
  | Dangling => Undefined
  end.

(** *** SegmentString (base class, external collaborator) *)

(** Modelled from the spec: element count of the active sequence. *)
Definition size (ss : RelateSegmentString) : outcome Z :=
  s <- activeSeq ss ;; Ret (getSize s).

(** Modelled from the spec: indexed access into the active sequence. *)
Definition getCoordinate (ss : RelateSegmentString) (i : Z) : outcome CoordinateXY :=
  s <- activeSeq ss ;; getAt s i.

(** Modelled from the spec: the closed/open predicate, "first point equals
    last". *)
Definition isClosed (ss : RelateSegmentString) : outcome bool :=
  s <- activeSeq ss ;;
  match s with
  | [] => Undefined
  | front :: _ => Ret (equals2D front (last s front))
  end.

(** Modelled from the spec: ring-aware "vertex immediately before index";
    before the first vertex comes the second-to-last one, the first and
    last points of a ring being the same. *)
Definition prevInRing (ss : RelateSegmentString) (index : Z) : outcome CoordinateXY :=
  n <- size ss ;;
  let prevIndex := if index =? 0 then size_t (n - 2) else size_t (index - 1) in
  getCoordinate ss prevIndex.

(** Modelled from the spec: ring-aware "vertex immediately after index";
    past the last vertex comes vertex 1. *)
Definition nextInRing (ss : RelateSegmentString) (index : Z) : outcome CoordinateXY :=
  n <- size ss ;;
  let nextIndex := size_t (index + 1) in
  let nextIndex := if size_t (n - 1) <? nextIndex then 1 else nextIndex in
  getCoordinate ss nextIndex.

(** *** Accessors *)

Definition isA (ss : RelateSegmentString) : bool := m_isA ss.
Definition getGeometry (ss : RelateSegmentString) : GeometryRef := m_inputGeom ss.
Definition getPolygonal (ss : RelateSegmentString) : GeometryRef := m_parentPolygonal ss.

(** *** Neighbour lookup *)

Definition prevVertex (ss : RelateSegmentString) (segIndex : Z) (pt : CoordinateXY)
  : outcome (option CoordinateXY) :=
  segStart <- getCoordinate ss segIndex ;;
  if negb (equals2D segStart pt) then Ret (Some segStart)
  else if 0 <? segIndex then
    seg <- getCoordinate ss (size_t (segIndex - 1)) ;;
    Ret (Some seg)
  else
    closed <- isClosed ss ;;
    if closed then
      p <- prevInRing ss segIndex ;;
      Ret (Some p)
    else Ret None.

Definition nextVertex (ss : RelateSegmentString) (segIndex : Z) (pt : CoordinateXY)
  : outcome (option CoordinateXY) :=
  segEnd <- getCoordinate ss (size_t (segIndex + 1)) ;;
  if negb (equals2D segEnd pt) then Ret (Some segEnd)
  else
    n <- size ss ;;
    if (n =? 2) && (segIndex =? INDEX_UNKNOWN) then
      seg <- getCoordinate ss 0 ;;
      Ret (Some seg)
    else if segIndex <? size_t (n - 2) then
      seg <- getCoordinate ss (size_t (segIndex + 2)) ;;
      Ret (Some seg)
    else
      closed <- isClosed ss ;;
      if closed then
        p <- nextInRing ss (size_t (segIndex + 1)) ;;
        Ret (Some p)
      else Ret None.

(** *** Node sections *)

(** Modelled from the spec: the value object [NodeSection], the arguments of
    its constructor in order. *)
Record NodeSection : Type := mkNodeSection {
  ns_isA : bool;
  ns_dim : Z;
  ns_id : Z;
  ns_ringId : Z;
  ns_poly : GeometryRef;
  ns_isNodeAtVertex : bool;
  ns_prev : option CoordinateXY;
  ns_nodePt : CoordinateXY;
  ns_next : option CoordinateXY
}.

Definition createNodeSection (ss : RelateSegmentString) (segIndex : Z)
    (intPt : CoordinateXY) : outcome NodeSection :=
  c0 <- getCoordinate ss segIndex ;;
  c1 <- getCoordinate ss (size_t (segIndex + 1)) ;;
  let isNodeAtVertex := equals2D intPt c0 || equals2D intPt c1 in
  prev <- prevVertex ss segIndex intPt ;;
  next <- nextVertex ss segIndex intPt ;;
  Ret (mkNodeSection (m_isA ss) (m_dimension ss) (m_id ss) (m_ringId ss)
         (m_parentPolygonal ss) isNodeAtVertex prev intPt next).

(** *** Intersection ownership *)

Definition isContainingSegment (ss : RelateSegmentString) (segIndex : Z)
    (pt : CoordinateXY) : outcome bool :=
  c0 <- getCoordinate ss segIndex ;;
  if equals2D pt c0 then Ret true
  else
    c1 <- getCoordinate ss (size_t (segIndex + 1)) ;;
    if equals2D pt c1 then
      n <- size ss ;;
      let isFinalSegment := segIndex =? size_t (n - 2) in
      closed <- isClosed ss ;;
      if closed || negb isFinalSegment then Ret false
      else Ret true
    else Ret true.

(** *** Normalisation: procedures on the walk's state *)

Definition proc (A : Type) : Type := stateful RelateSegmentString A.

(** Reading through [seq]. *)
Definition readSeq : proc CoordinateSequence :=
  fun ss =>
    match activeSeq ss with
    | Ret s => Ret (s, ss)
    | Undefined => Undefined
    end.

(** [csStore = v]: the sequence held before is destroyed, which leaves [seq]
    dangling when it pointed there. *)
Definition assignStore (v : CoordinateSequence) : proc unit :=
  fun ss =>
    Ret (tt, mkRelateSegmentString (pts ss) (Some v)
               (match seq ss with
                | ToCaller => ToCaller
                | ToStore => Dangling
                | Dangling => Dangling
                end)
               (m_isA ss) (m_dimension ss) (m_id ss) (m_ringId ss)
               (m_parentPolygonal ss) (m_inputGeom ss)).

(** [csStore->reverse()]. *)
Definition reverseStore : proc unit :=
  fun ss =>
    match csStore ss with
    | Some s =>
        Ret (tt, mkRelateSegmentString (pts ss) (Some (reverse s)) (seq ss)
                   (m_isA ss) (m_dimension ss) (m_id ss) (m_ringId ss)
                   (m_parentPolygonal ss) (m_inputGeom ss))
    | None => Undefined
    end.

(** [seq = csStore.get()]. *)
Definition seqFromStore : proc unit :=
  fun ss =>
    Ret (tt, mkRelateSegmentString (pts ss) (csStore ss) ToStore
               (m_isA ss) (m_dimension ss) (m_id ss) (m_ringId ss)
               (m_parentPolygonal ss) (m_inputGeom ss)).

Definition orientAndRemoveRepeated (orientCW : bool) : proc unit :=
  s <~ readSeq ;;
  let isFlipped := Bool.eqb orientCW (isCCW s) in
  let hasRepeated := hasRepeatedPoints s in
  if negb isFlipped && negb hasRepeated then pret tt
  else
    pwhen hasRepeated
      (s1 <~ readSeq ;;
       assignStore (removeRepeatedPoints s1) ;;;
       pwhen isFlipped reverseStore) ;;;
    pwhen isFlipped
      (s2 <~ readSeq ;;
       assignStore (clone s2) ;;;
       reverseStore) ;;;
    seqFromStore.

Definition removeRepeated : proc unit :=
  s <~ readSeq ;;
  let hasRepeated := hasRepeatedPoints s in
  if negb hasRepeated then pret tt
  else
    s1 <~ readSeq ;;
    assignStore (removeRepeatedPoints s1) ;;;
    seqFromStore.

(** The walk a procedure leaves behind, and its active sequence. *)
Definition after {A : Type} (m : proc A) (ss : RelateSegmentString)
  : outcome RelateSegmentString :=
  match m ss with
  | Ret (_, ss') => Ret ss'
  | Undefined => Undefined
  end.

Definition activeAfter {A : Type} (m : proc A) (ss : RelateSegmentString)
  : outcome CoordinateSequence :=
  ss' <- after m ss ;; activeSeq ss'.

End Walk.

Arguments getSize {CoordinateXY} s.
Arguments getAt {CoordinateXY} s i.
Arguments reverse {CoordinateXY} s.
Arguments clone {CoordinateXY} s.
Arguments borrowed {CoordinateXY} s isA dim id ringId poly parent.
Arguments activeSeq {CoordinateXY} ss.
Arguments size {CoordinateXY} ss.
Arguments getCoordinate {CoordinateXY} ss i.
Arguments isClosed {CoordinateXY} equals2D ss.
Arguments prevInRing {CoordinateXY} ss index.
Arguments nextInRing {CoordinateXY} ss index.
Arguments prevVertex {CoordinateXY} equals2D ss segIndex pt.
Arguments nextVertex {CoordinateXY} equals2D ss segIndex pt.
Arguments createNodeSection {CoordinateXY} equals2D ss segIndex intPt.
Arguments isContainingSegment {CoordinateXY} equals2D ss segIndex pt.
Arguments hasRepeatedPoints {CoordinateXY} equals2D s.
Arguments removeRepeatedPoints {CoordinateXY} equals2D s.
Arguments orientAndRemoveRepeated {CoordinateXY} equals2D isCCW orientCW _.
Arguments removeRepeated {CoordinateXY} equals2D _.
Arguments after {CoordinateXY A} m ss.
Arguments activeAfter {CoordinateXY A} m ss.
Arguments mkNodeSection {CoordinateXY}.
Arguments addNoRepeated {CoordinateXY} equals2D last s.
Arguments readSeq {CoordinateXY} _.
Arguments pts {CoordinateXY} _.
Arguments csStore {CoordinateXY} _.
Arguments seq {CoordinateXY} _.
Arguments m_isA {CoordinateXY} _.
Arguments m_dimension {CoordinateXY} _.
Arguments m_id {CoordinateXY} _.
Arguments m_ringId {CoordinateXY} _.
Arguments m_parentPolygonal {CoordinateXY} _.
Arguments m_inputGeom {CoordinateXY} _.
Arguments ns_isA {CoordinateXY} _.
Arguments ns_dim {CoordinateXY} _.
Arguments ns_id {CoordinateXY} _.
Arguments ns_ringId {CoordinateXY} _.
Arguments ns_poly {CoordinateXY} _.
Arguments ns_isNodeAtVertex {CoordinateXY} _.
Arguments ns_prev {CoordinateXY} _.
Arguments ns_nodePt {CoordinateXY} _.
Arguments ns_next {CoordinateXY} _.
Arguments isA {CoordinateXY} ss.
Arguments getGeometry {CoordinateXY} ss.
Arguments getPolygonal {CoordinateXY} ss.

(** A segment index the walk really has: segment [segIndex] joins the
    vertices [segIndex] and [segIndex + 1]; the element count is a
    [std::size_t]. *)
Definition validSegment {CoordinateXY : Type} (s : list CoordinateXY)
    (segIndex : Z) : Prop :=
  0 <= segIndex /\ segIndex + 1 < getSize s /\ getSize s <= SIZE_MAX.

(** ** Walking a ring and tallying the claims on a vertex *)

(** The vertex a point index of a ring of [n] points stands for: the closing
    point is vertex 0 again. *)
Definition ringVertex (n p : nat) : nat := if Nat.eqb p (n - 1) then 0%nat else p.

Section Tally.

Context {CoordinateXY : Type}.
Variable equals2D : CoordinateXY -> CoordinateXY -> bool.

(** No point of the sequence 2D-equals a later one. *)
Fixpoint distinct2D (s : list CoordinateXY) : bool :=
  match s with
  | [] => true
  | a :: r => forallb (fun b => negb (equals2D a b)) r && distinct2D r
  end.

(** One query of the walk: segment [segIndex] is asked about the vertex at
    [vertexIndex], one of its two endpoints.  The query counts for [v] when
    that vertex is [v] and the segment claims it. *)
Definition claim (ss : RelateSegmentString CoordinateXY) (v : CoordinateXY)
    (segIndex vertexIndex : Z) : nat :=
  match getCoordinate ss vertexIndex with
  | Ret pt =>
      match isContainingSegment equals2D ss segIndex pt with
      | Ret true => if equals2D pt v then 1%nat else 0%nat
      | _ => 0%nat
      end
  | Undefined => 0%nat
  end.

(** Both endpoint queries of segment [i]. *)
Definition claimsOfSegment (ss : RelateSegmentString CoordinateXY)
    (v : CoordinateXY) (i : nat) : nat :=
  (claim ss v (Z.of_nat i) (Z.of_nat i)
   + claim ss v (Z.of_nat i) (Z.of_nat i + 1))%nat.

(** All segments of the walk, in order. *)
Definition claims (ss : RelateSegmentString CoordinateXY) (v : CoordinateXY)
  : outcome nat :=
  n <- size ss ;;
  Ret (list_sum (map (claimsOfSegment ss v) (List.seq 0 (Z.to_nat (n - 1))))).

End Tally.

(** ** Points with integer ordinates

    The concrete scenarios of the specification use points with integer
    ordinates; they are run on this instance of the point type. *)
Module Grid.

Record XY : Type := mkXY { x : Z; y : Z }.

Definition equals2D (a b : XY) : bool := (x a =? x b) && (y a =? y b).

(** Twice the signed area enclosed by the sequence (shoelace sum);
    positive for a counter-clockwise ring. *)
Fixpoint signedArea2 (s : list XY) : Z :=
  match s with
  | [] => 0
  | p :: r =>
      match r with
      | [] => 0
      | q :: _ => x p * y q - x q * y p + signedArea2 r
      end
  end.

(** Modelled from the spec: [Orientation::isCCW], the orientation
    "computed from signed area / winding". *)
Definition isCCW (s : list XY) : bool := 0 <? signedArea2 s.

Definition P (a b : Z) : XY := mkXY a b.

(** A line walk and a ring walk over a caller's sequence, with the
    context the factories [createLine] and [createRing] hand to the
    constructor for operand A, element 0 (ring 0 of polygon 7). *)
Definition line (s : list XY) : RelateSegmentString XY :=
  borrowed s true Dimension.L 0 (-1) None (Some 1).

Definition ring (s : list XY) : RelateSegmentString XY :=
  borrowed s true Dimension.A 0 0 (Some 7) (Some 1).

(** The square ring of the specification's scenario, with its accidental
    leading duplicate. *)
Definition square : list XY :=
  [P 0 0; P 0 0; P 10 0; P 10 10; P 0 10; P 0 0].

End Grid.

(** An open line with a zero-length first segment, an open three-point
    line, a two-point line, a closed square and a square whose first vertex
    is repeated. *)
Module Samples.
Import Grid.
Definition stutter : list XY := [P 0 0; P 0 0; P 1 0].
Definition threePoints : list XY := [P 0 0; P 5 0; P 10 0].
Definition twoPoints : list XY := [P 0 0; P 5 0].
Definition cleanSquare : list XY := [P 0 0; P 10 0; P 10 10; P 0 10; P 0 0].
Definition stutterRing : list XY := [P 0 0; P 0 0; P 1 0; P 0 1; P 0 0].
Definition bowTie : list XY :=
  [P 0 0; P 2 0; P 1 1; P 2 2; P 0 2; P 1 1; P 0 0].
End Samples.

(** * Properties *)

(** ** Indices and access *)

Lemma size_t_small (z : Z) : 0 <= z <= SIZE_MAX -> size_t z = z.
Proof.
  unfold SIZE_MAX, size_t. intros H. apply Z.mod_small. lia.
Qed.

Lemma INDEX_UNKNOWN_succ : size_t (INDEX_UNKNOWN + 1) = 0.
Proof. reflexivity. Qed.

Ltac in_range := rewrite ?size_t_small by (unfold SIZE_MAX in *; lia).
Ltac valid_segment := unfold validSegment, getSize, SIZE_MAX; simpl; lia.

Section Properties.

Context {CoordinateXY : Type}.
Variable equals2D : CoordinateXY -> CoordinateXY -> bool.

Implicit Types (ss : RelateSegmentString CoordinateXY)
               (s : list CoordinateXY)
               (pt : CoordinateXY).

Lemma getAt_in_range s (i : Z) :
  0 <= i < getSize s ->
  exists c, getAt s i = Ret c /\ nth_error s (Z.to_nat i) = Some c.
Proof.
  unfold getAt, getSize. intros [Hlo Hhi].
  destruct (Z.ltb_spec i 0) as [Hneg | _]; [lia |].
  destruct (nth_error s (Z.to_nat i)) as [c |] eqn:E.
  - exists c. split; reflexivity.
  - apply nth_error_None in E. lia.
Qed.

Lemma getAt_Ret s (i : Z) (c : CoordinateXY) :
  getAt s i = Ret c -> 0 <= i < getSize s /\ nth_error s (Z.to_nat i) = Some c.
Proof.
  unfold getAt, getSize.
  destruct (Z.ltb_spec i 0) as [Hneg | Hpos]; [discriminate |].
  destruct (nth_error s (Z.to_nat i)) as [c' |] eqn:E; [| discriminate].
  intros H. injection H as ->. split; [| reflexivity].
  assert (Hlt : (Z.to_nat i < length s)%nat) by (apply nth_error_Some; congruence).
  lia.
Qed.

Lemma getCoordinate_active ss s (i : Z) :
  activeSeq ss = Ret s -> getCoordinate ss i = getAt s i.
Proof. unfold getCoordinate. intros ->. reflexivity. Qed.

Lemma size_active ss s :
  activeSeq ss = Ret s -> size ss = Ret (getSize s).
Proof. unfold size. intros ->. reflexivity. Qed.

Lemma getCoordinate_in_range ss s (i : Z) :
  activeSeq ss = Ret s -> 0 <= i < getSize s ->
  exists c, getCoordinate ss i = Ret c.
Proof.
  intros Ha Hi. rewrite (getCoordinate_active _ _ _ Ha).
  destruct (getAt_in_range s i Hi) as [c [Hc _]]. eauto.
Qed.

(** In a sequence of at least one point, the point [isClosed] compares the
    front with is the one at the last index. *)
Lemma last_getAt s (d : CoordinateXY) :
  s <> [] -> getAt s (getSize s - 1) = Ret (last s d).
Proof.
  intros Hne. destruct (@exists_last _ s Hne) as [s' [b ->]].
  rewrite last_last. unfold getAt, getSize. rewrite length_app. simpl.
  destruct (Z.ltb_spec (Z.of_nat (length s' + 1) - 1) 0) as [Hneg | _]; [lia |].
  replace (Z.to_nat (Z.of_nat (length s' + 1) - 1)) with (length s') by lia.
  rewrite nth_error_app2 by lia. rewrite Nat.sub_diag. reflexivity.
Qed.

Lemma isClosed_spec ss s (front back : CoordinateXY) :
  activeSeq ss = Ret s ->
  getAt s 0 = Ret front -> getAt s (getSize s - 1) = Ret back ->
  isClosed equals2D ss = Ret (equals2D front back).
Proof.
  intros Ha Hf Hb. unfold isClosed. rewrite Ha. simpl.
  destruct s as [| p r]; [discriminate |].
  rewrite (last_getAt (p :: r) p) in Hb by discriminate.
  injection Hb as <-. unfold getAt in Hf. simpl in Hf. injection Hf as <-.
  reflexivity.
Qed.


(** ** Intersection ownership *)

(** C10. Whatever the walk and the segment index, a query point that
    2D-equals the segment's start vertex is claimed: the start-vertex test
    comes first and nothing else is consulted (closedness, final segment,
    not even the end vertex).  Hence along a zero-length segment, whose
    start [c0] and end [c1] both equal the point, the segment itself and the
    segment that follows it both claim the point. *)
Theorem isContainingSegment_start_vertex_first :
  forall ss (segIndex : Z) pt (c0 : CoordinateXY),
    getCoordinate ss segIndex = Ret c0 ->
    equals2D pt c0 = true ->
    isContainingSegment equals2D ss segIndex pt = Ret true
    /\ (forall c1 : CoordinateXY,
          getCoordinate ss (size_t (segIndex + 1)) = Ret c1 ->
          equals2D pt c1 = true ->
          isContainingSegment equals2D ss (size_t (segIndex + 1)) pt = Ret true).
Proof.
  assert (start : forall ss i pt c, getCoordinate ss i = Ret c ->
            equals2D pt c = true ->
            isContainingSegment equals2D ss i pt = Ret true).
  { intros ss i pt c Hc Heq. unfold isContainingSegment.
    rewrite Hc. simpl. rewrite Heq. reflexivity. }
  intros ss segIndex pt c0 H0 E0. split.
  - exact (start ss segIndex pt c0 H0 E0).
  - intros c1 H1 E1. exact (start ss _ pt c1 H1 E1).
Qed.

Lemma isContainingSegment_body ss s (segIndex : Z) pt (c0 c1 : CoordinateXY)
    (closed : bool) :
  activeSeq ss = Ret s ->
  validSegment s segIndex ->
  getCoordinate ss segIndex = Ret c0 ->
  getCoordinate ss (segIndex + 1) = Ret c1 ->
  isClosed equals2D ss = Ret closed ->
  isContainingSegment equals2D ss segIndex pt
  = Ret (if equals2D pt c0 then true
         else if equals2D pt c1
              then negb closed && (segIndex =? getSize s - 2)
              else true).
Proof.
  intros Ha [Hlo [Hhi Hfit]] H0 H1 Hcl.
  unfold isContainingSegment. rewrite H0. simpl.
  destruct (equals2D pt c0); [reflexivity |].
  in_range. rewrite H1. simpl.
  destruct (equals2D pt c1); [| reflexivity].
  rewrite (size_active _ _ Ha). simpl. in_range. rewrite Hcl. simpl.
  destruct closed, (segIndex =? getSize s - 2); reflexivity.
Qed.

(** C3, amended.  On a valid segment with start [c0] and end [c1]: a point
    equal to [c0] is claimed; a point equal to neither end is claimed; a
    point equal to [c1] and not to [c0] is claimed exactly when the walk is
    open and the segment is the final one.  The single segment of a
    two-point open line claims the terminal vertex. *)
Theorem isContainingSegment_cases :
  forall ss s (segIndex : Z) pt (c0 c1 : CoordinateXY) (closed : bool),
    activeSeq ss = Ret s ->
    validSegment s segIndex ->
    getCoordinate ss segIndex = Ret c0 ->
    getCoordinate ss (segIndex + 1) = Ret c1 ->
    isClosed equals2D ss = Ret closed ->
    (equals2D pt c0 = true ->
       isContainingSegment equals2D ss segIndex pt = Ret true)
    /\ (equals2D pt c0 = false -> equals2D pt c1 = false ->
       isContainingSegment equals2D ss segIndex pt = Ret true)
    /\ (equals2D pt c0 = false -> equals2D pt c1 = true ->
       isContainingSegment equals2D ss segIndex pt
       = Ret (negb closed && (segIndex =? getSize s - 2)))
    /\ (getSize s = 2 -> closed = false -> equals2D pt c1 = true ->
       isContainingSegment equals2D ss segIndex pt = Ret true).
Proof.
  intros ss s segIndex pt c0 c1 closed Ha Hv H0 H1 Hcl.
  rewrite (isContainingSegment_body ss s segIndex pt c0 c1 closed Ha Hv H0 H1 Hcl).
  destruct Hv as [Hlo [Hhi Hfit]]. repeat split.
  - intros ->. reflexivity.
  - intros -> ->. reflexivity.
  - intros -> ->. reflexivity.
  - intros Hn -> ->. replace (segIndex =? getSize s - 2) with true.
    + destruct (equals2D pt c0); reflexivity.
    + symmetry. apply Z.eqb_eq. lia.
Qed.

(** ** Neighbour lookup *)

Lemma prevVertex_body ss s (segIndex : Z) pt (c0 : CoordinateXY) (closed : bool) :
  activeSeq ss = Ret s ->
  validSegment s segIndex ->
  getCoordinate ss segIndex = Ret c0 ->
  isClosed equals2D ss = Ret closed ->
  exists before : CoordinateXY,
    getCoordinate ss (if segIndex =? 0 then getSize s - 2 else segIndex - 1)
    = Ret before
    /\ prevVertex equals2D ss segIndex pt
       = Ret (if negb (equals2D c0 pt) then Some c0
              else if 0 <? segIndex then Some before
              else if closed then Some before else None).
Proof.
  intros Ha [Hlo [Hhi Hfit]] H0 Hcl.
  destruct (getCoordinate_in_range ss s
              (if segIndex =? 0 then getSize s - 2 else segIndex - 1) Ha)
    as [before Hb].
  { destruct (Z.eqb_spec segIndex 0); lia. }
  exists before. split; [exact Hb |].
  unfold prevVertex. rewrite H0. simpl.
  destruct (negb (equals2D c0 pt)); [reflexivity |].
  destruct (Z.ltb_spec 0 segIndex) as [Hpos | Hzero].
  - in_range. destruct (Z.eqb_spec segIndex 0); [lia |].
    rewrite Hb. reflexivity.
  - assert (segIndex = 0) by lia. subst segIndex. simpl in Hb.
    rewrite Hcl. simpl. destruct closed; [| reflexivity].
    unfold prevInRing. rewrite (size_active _ _ Ha). simpl. in_range.
    rewrite Hb. reflexivity.
Qed.

Lemma nextVertex_body ss s (segIndex : Z) pt (c1 : CoordinateXY) (closed : bool) :
  activeSeq ss = Ret s ->
  validSegment s segIndex ->
  getCoordinate ss (segIndex + 1) = Ret c1 ->
  isClosed equals2D ss = Ret closed ->
  exists following : CoordinateXY,
    getCoordinate ss (if segIndex <? getSize s - 2 then segIndex + 2 else 1)
    = Ret following
    /\ nextVertex equals2D ss segIndex pt
       = Ret (if negb (equals2D c1 pt) then Some c1
              else if segIndex <? getSize s - 2 then Some following
              else if closed then Some following else None).
Proof.
  intros Ha [Hlo [Hhi Hfit]] H1 Hcl.
  destruct (getCoordinate_in_range ss s
              (if segIndex <? getSize s - 2 then segIndex + 2 else 1) Ha)
    as [following Hf].
  { destruct (Z.ltb_spec segIndex (getSize s - 2)); lia. }
  exists following. split; [exact Hf |].
  unfold nextVertex. in_range. rewrite H1. simpl.
  destruct (negb (equals2D c1 pt)); [reflexivity |].
  rewrite (size_active _ _ Ha). simpl.
  replace (segIndex =? INDEX_UNKNOWN) with false
    by (symmetry; apply Z.eqb_neq; unfold INDEX_UNKNOWN; lia).
  rewrite andb_false_r. in_range.
  destruct (Z.ltb_spec segIndex (getSize s - 2)) as [Hin | Hfinal].
  - in_range. rewrite Hf. reflexivity.
  - rewrite Hcl. simpl. destruct closed; [| reflexivity].
    unfold nextInRing. rewrite (size_active _ _ Ha). simpl. in_range.
    replace (getSize s - 1 <? segIndex + 1 + 1) with true
      by (symmetry; apply Z.ltb_lt; lia).
    rewrite Hf. reflexivity.
Qed.

Hypothesis equals2D_refl : forall a : CoordinateXY, equals2D a a = true.

(** C5. On a closed ring walk, [prevVertex] and [nextVertex] return a vertex
    for every valid segment index and every point, and [prevVertex] at
    segment 0 and the ring's first vertex is the second-to-last vertex.  On
    an open walk, [prevVertex] returns no vertex exactly when the point
    equals the first vertex and the segment index is 0, and [nextVertex]
    returns no vertex exactly when the point equals the last vertex and the
    segment is the final one. *)
Theorem neighbours_absent_only_at_open_ends :
  forall ss s (segIndex : Z) pt (first back : CoordinateXY),
    activeSeq ss = Ret s ->
    validSegment s segIndex ->
    getCoordinate ss 0 = Ret first ->
    getCoordinate ss (getSize s - 1) = Ret back ->
    (isClosed equals2D ss = Ret true ->
       (exists v, prevVertex equals2D ss segIndex pt = Ret (Some v))
       /\ (exists v, nextVertex equals2D ss segIndex pt = Ret (Some v))
       /\ (exists v, getCoordinate ss (getSize s - 2) = Ret v
                     /\ prevVertex equals2D ss 0 first = Ret (Some v)))
    /\ (isClosed equals2D ss = Ret false ->
       (exists r, prevVertex equals2D ss segIndex pt = Ret r
                  /\ (r = None <-> equals2D first pt = true /\ segIndex = 0))
       /\ (exists r, nextVertex equals2D ss segIndex pt = Ret r
                  /\ (r = None <->
                      equals2D back pt = true /\ segIndex = getSize s - 2))).
Proof.
  intros ss s segIndex pt first back Ha Hv Hfirst Hback.
  pose proof Hv as [Hlo [Hhi Hfit]].
  destruct (getCoordinate_in_range ss s segIndex Ha) as [c0 H0]; [lia |].
  destruct (getCoordinate_in_range ss s (segIndex + 1) Ha) as [c1 H1]; [lia |].
  split; intros Hcl.
  - destruct (prevVertex_body ss s segIndex pt c0 true Ha Hv H0 Hcl)
      as [before [_ Hp]].
    destruct (nextVertex_body ss s segIndex pt c1 true Ha Hv H1 Hcl)
      as [following [_ Hn]].
    split; [| split].
    + rewrite Hp. destruct (negb (equals2D c0 pt)); [eauto |].
      destruct (0 <? segIndex); eauto.
    + rewrite Hn. destruct (negb (equals2D c1 pt)); [eauto |].
      destruct (segIndex <? getSize s - 2); eauto.
    + assert (Hv0 : validSegment s 0) by (unfold validSegment; lia).
      destruct (prevVertex_body ss s 0 first first true Ha Hv0 Hfirst Hcl)
        as [v [Hg Hp0]].
      simpl in Hg, Hp0. rewrite equals2D_refl in Hp0. simpl in Hp0. eauto.
  - destruct (prevVertex_body ss s segIndex pt c0 false Ha Hv H0 Hcl)
      as [before [_ Hp]].
    destruct (nextVertex_body ss s segIndex pt c1 false Ha Hv H1 Hcl)
      as [following [_ Hn]].
    split.
    + eexists. split; [exact Hp |].
      destruct (Z.ltb_spec 0 segIndex) as [Hpos | Hzero].
      * split.
        -- destruct (negb (equals2D c0 pt)); discriminate.
        -- intros [_ E]. lia.
      * assert (segIndex = 0) by lia. subst segIndex.
        assert (c0 = first) by congruence. subst c0.
        destruct (equals2D first pt); simpl; split;
          try discriminate; try tauto.
        intros [E _]. discriminate.
    + eexists. split; [exact Hn |].
      destruct (Z.ltb_spec segIndex (getSize s - 2)) as [Hin | Hfinal].
      * split.
        -- destruct (negb (equals2D c1 pt)); discriminate.
        -- intros [_ E]. lia.
      * assert (segIndex = getSize s - 2) by lia. subst segIndex.
        replace (getSize s - 2 + 1) with (getSize s - 1) in H1 by lia.
        assert (c1 = back) by congruence. subst c1.
        destruct (equals2D back pt); simpl; split;
          try discriminate; try tauto.
        intros [E _]. discriminate.
Qed.

(** C6. The wrap to vertex 0 in [nextVertex] needs the sentinel: on a
    two-point walk [a; b], the call with the sentinel index returns vertex 0
    whatever the point, while the call with the real segment index 0 never
    takes that branch: it returns the end vertex [b] for a point that
    differs from it, and for a point equal to [b] it returns no vertex on an
    open walk and [b] (the vertex after index 1 around the ring) on a closed
    one. *)
Theorem nextVertex_wraps_only_on_sentinel :
  forall ss (a b : CoordinateXY) pt,
    activeSeq ss = Ret [a; b] ->
    nextVertex equals2D ss INDEX_UNKNOWN pt = Ret (Some a)
    /\ nextVertex equals2D ss 0 pt
       = Ret (if negb (equals2D b pt) then Some b
              else if equals2D a b then Some b else None)
    /\ (equals2D a b = false -> equals2D b pt = true ->
        nextVertex equals2D ss 0 pt = Ret None).
Proof.
  intros ss a b pt Ha.
  assert (H0 : nextVertex equals2D ss 0 pt
               = Ret (if negb (equals2D b pt) then Some b
                      else if equals2D a b then Some b else None)).
  { unfold nextVertex, nextInRing, isClosed, size, getCoordinate.
    rewrite Ha. change (size_t (0 + 1)) with 1. cbn [obind getAt nth_error].
    change (getAt [a; b] 1) with (Ret b). cbn [obind].
    destruct (negb (equals2D b pt)); [reflexivity |].
    change (getSize [a; b]) with 2. cbn [last].
    destruct (equals2D a b); reflexivity. }
  split; [| split].
  - unfold nextVertex, size, getCoordinate.
    rewrite Ha, INDEX_UNKNOWN_succ. cbn [obind].
    change (getAt [a; b] 0) with (Ret a). cbn [obind].
    destruct (negb (equals2D a pt)); reflexivity.
  - exact H0.
  - intros Hopen Hend. rewrite H0, Hend, Hopen. reflexivity.
Qed.

(** ** Exactly one claim per ring vertex *)

Hypothesis equals2D_sym :
  forall a b : CoordinateXY, equals2D a b = equals2D b a.
Hypothesis equals2D_trans :
  forall a b c : CoordinateXY,
    equals2D a b = true -> equals2D b c = true -> equals2D a c = true.

Lemma equals2D_congr_l (a a' b : CoordinateXY) :
  equals2D a a' = true -> equals2D a b = equals2D a' b.
Proof.
  intros E. destruct (equals2D a' b) eqn:E'.
  - exact (equals2D_trans _ _ _ E E').
  - destruct (equals2D a b) eqn:E''; [| reflexivity].
    rewrite equals2D_sym in E.
    rewrite (equals2D_trans _ _ _ E E'') in E'. discriminate.
Qed.

Lemma equals2D_congr_r (a b b' : CoordinateXY) :
  equals2D b b' = true -> equals2D a b = equals2D a b'.
Proof.
  intros E. rewrite (equals2D_sym a b), (equals2D_sym a b').
  apply equals2D_congr_l. exact E.
Qed.

Lemma getAt_of_nat s (i : nat) :
  getAt s (Z.of_nat i)
  = match nth_error s i with Some c => Ret c | None => Undefined end.
Proof.
  unfold getAt. destruct (Z.ltb_spec (Z.of_nat i) 0) as [Hneg | _]; [lia |].
  rewrite Nat2Z.id. reflexivity.
Qed.

Lemma distinct2D_nth s :
  distinct2D equals2D s = true ->
  forall (i j : nat) (a b : CoordinateXY),
    (i < j)%nat -> nth_error s i = Some a -> nth_error s j = Some b ->
    equals2D a b = false.
Proof.
  induction s as [| c r IH]; intros Hd i j a b Hij Hi Hj.
  - destruct i; discriminate.
  - simpl in Hd. apply andb_true_iff in Hd. destruct Hd as [Hall Hr].
    destruct j as [| j]; [lia |]. simpl in Hj.
    destruct i as [| i].
    + simpl in Hi. injection Hi as ->.
      rewrite forallb_forall in Hall.
      specialize (Hall b (nth_error_In _ _ Hj)).
      apply negb_true_iff in Hall. exact Hall.
    + simpl in Hi. apply (IH Hr i j a b); [lia | assumption | assumption].
Qed.

Lemma distinct2D_eqb s :
  distinct2D equals2D s = true ->
  forall (i j : nat) (a b : CoordinateXY),
    nth_error s i = Some a -> nth_error s j = Some b ->
    equals2D a b = Nat.eqb i j.
Proof.
  intros Hd i j a b Hi Hj.
  destruct (Nat.eqb_spec i j) as [-> | Hne].
  - assert (a = b) by congruence. subst b. apply equals2D_refl.
  - destruct (Nat.lt_ge_cases i j) as [Hlt | Hge].
    + exact (distinct2D_nth s Hd i j a b Hlt Hi Hj).
    + rewrite equals2D_sym.
      apply (distinct2D_nth s Hd j i b a); [lia | assumption | assumption].
Qed.

(** In a closed ring whose vertices are pairwise distinct, two points are
    2D-equal exactly when they stand for the same vertex. *)
Lemma ring_equals2D s :
  (3 <= length s)%nat ->
  (forall front back : CoordinateXY,
      nth_error s 0 = Some front -> nth_error s (length s - 1) = Some back ->
      equals2D front back = true) ->
  distinct2D equals2D (removelast s) = true ->
  forall (p q : nat) (a b : CoordinateXY),
    nth_error s p = Some a -> nth_error s q = Some b ->
    equals2D a b = Nat.eqb (ringVertex (length s) p) (ringVertex (length s) q).
Proof.
  intros Hn Hclosed Hd.
  assert (inner : forall i c, (i < length s - 1)%nat ->
            nth_error s i = Some c -> nth_error (removelast s) i = Some c).
  { intros i c Hi Hc. rewrite removelast_firstn_len, nth_error_firstn.
    destruct (Nat.ltb_spec i (Nat.pred (length s))); [exact Hc | lia]. }
  assert (rep : forall p a, nth_error s p = Some a ->
            exists c, nth_error (removelast s) (ringVertex (length s) p) = Some c
                      /\ equals2D a c = true).
  { intros p a Hp.
    assert (Hlt : (p < length s)%nat) by (apply nth_error_Some; congruence).
    unfold ringVertex. destruct (Nat.eqb_spec p (length s - 1)) as [-> | Hne].
    - destruct (nth_error s 0) as [front |] eqn:Hf.
      + exists front. split; [apply inner; [lia | exact Hf] |].
        rewrite equals2D_sym. apply (Hclosed front a); [reflexivity | exact Hp].
      + apply nth_error_None in Hf. lia.
    - exists a. split; [apply inner; [lia | exact Hp] | apply equals2D_refl]. }
  intros p q a b Hp Hq.
  destruct (rep p a Hp) as [a' [Ha' Ea]].
  destruct (rep q b Hq) as [b' [Hb' Eb]].
  rewrite (equals2D_congr_l a a' b Ea), (equals2D_congr_r a' b b' Eb).
  exact (distinct2D_eqb _ Hd _ _ a' b' Ha' Hb').
Qed.

Lemma list_sum_indicator (k a m : nat) :
  list_sum (map (fun i => if Nat.eqb i k then 1%nat else 0%nat) (List.seq a m))
  = (if (a <=? k)%nat && (k <? a + m)%nat then 1%nat else 0%nat).
Proof.
  revert a. induction m as [| m IH]; intros a.
  - simpl. destruct (Nat.leb_spec a k), (Nat.ltb_spec k (a + 0)); simpl; lia.
  - simpl. rewrite IH.
    destruct (Nat.eqb_spec a k), (Nat.leb_spec a k),
      (Nat.leb_spec (S a) k), (Nat.ltb_spec k (S a + m)),
      (Nat.ltb_spec k (a + S m)); simpl; lia.
Qed.

Lemma isClosed_nth ss s (closed : bool) :
  activeSeq ss = Ret s ->
  isClosed equals2D ss = Ret closed ->
  forall front back : CoordinateXY,
    nth_error s 0 = Some front -> nth_error s (length s - 1) = Some back ->
    equals2D front back = closed.
Proof.
  intros Ha Hcl front back Hf Hb.
  assert (Hlen : (0 < length s)%nat) by (apply nth_error_Some; congruence).
  assert (H : isClosed equals2D ss = Ret (equals2D front back)).
  { apply (isClosed_spec ss s front back Ha).
    - change 0 with (Z.of_nat 0). rewrite getAt_of_nat, Hf. reflexivity.
    - replace (getSize s - 1) with (Z.of_nat (length s - 1))
        by (unfold getSize; lia).
      rewrite getAt_of_nat, Hb. reflexivity. }
  congruence.
Qed.

Section Ring.

Variable ss : RelateSegmentString CoordinateXY.
Variable s : list CoordinateXY.
Hypothesis active : activeSeq ss = Ret s.
Hypothesis fits : 3 <= getSize s <= SIZE_MAX.
Hypothesis closed : isClosed equals2D ss = Ret true.
Hypothesis simple : distinct2D equals2D (removelast s) = true.

Let n : nat := length s.

Lemma ring_points (p q : nat) (a b : CoordinateXY) :
  nth_error s p = Some a -> nth_error s q = Some b ->
  equals2D a b = Nat.eqb (ringVertex n p) (ringVertex n q).
Proof.
  apply ring_equals2D.
  - unfold getSize in fits. lia.
  - exact (isClosed_nth ss s true active closed).
  - exact simple.
Qed.

Lemma ring_segment (i : nat) :
  (i < n - 1)%nat ->
  exists c0 c1 : CoordinateXY,
    nth_error s i = Some c0 /\ nth_error s (i + 1) = Some c1
    /\ getCoordinate ss (Z.of_nat i) = Ret c0
    /\ getCoordinate ss (Z.of_nat i + 1) = Ret c1
    /\ validSegment s (Z.of_nat i)
    /\ forall pt, isContainingSegment equals2D ss (Z.of_nat i) pt
                  = Ret (if equals2D pt c0 then true
                         else if equals2D pt c1 then false else true).
Proof.
  intros Hi. subst n.
  destruct (nth_error s i) as [c0 |] eqn:H0;
    [| apply nth_error_None in H0; lia].
  destruct (nth_error s (i + 1)) as [c1 |] eqn:H1;
    [| apply nth_error_None in H1; lia].
  assert (G0 : getCoordinate ss (Z.of_nat i) = Ret c0)
    by (rewrite (getCoordinate_active _ _ _ active), getAt_of_nat, H0;
        reflexivity).
  assert (G1 : getCoordinate ss (Z.of_nat i + 1) = Ret c1).
  { replace (Z.of_nat i + 1) with (Z.of_nat (i + 1)) by lia.
    rewrite (getCoordinate_active _ _ _ active), getAt_of_nat, H1.
    reflexivity. }
  assert (Hv : validSegment s (Z.of_nat i))
    by (unfold validSegment, getSize in *; lia).
  exists c0, c1. repeat split; try assumption; try (destruct Hv; tauto).
  intros pt.
  rewrite (isContainingSegment_body ss s _ pt c0 c1 true active Hv G0 G1 closed).
  reflexivity.
Qed.

Lemma ring_claimsOfSegment (v : CoordinateXY) (k i : nat) :
  nth_error s k = Some v ->
  (i < n - 1)%nat ->
  claimsOfSegment equals2D ss v i
  = if Nat.eqb i (ringVertex n k) then 1%nat else 0%nat.
Proof.
  intros Hk Hi.
  destruct (ring_segment i Hi) as [c0 [c1 [H0 [H1 [G0 [G1 [_ Hown]]]]]]].
  unfold claimsOfSegment, claim. rewrite G0, G1, !Hown.
  rewrite (equals2D_refl c0), (equals2D_refl c1).
  rewrite (ring_points (i + 1) i c1 c0 H1 H0).
  rewrite (ring_points i k c0 v H0 Hk).
  assert (Hi' : ringVertex n i = i).
  { unfold ringVertex. destruct (Nat.eqb_spec i (n - 1)); [lia | reflexivity]. }
  assert (Hne : Nat.eqb (ringVertex n (i + 1)) (ringVertex n i) = false).
  { rewrite Hi'. apply Nat.eqb_neq. unfold ringVertex.
    subst n. unfold getSize in fits.
    destruct (Nat.eqb_spec (i + 1) (length s - 1)); lia. }
  rewrite Hne, Hi'.
  destruct (Nat.eqb i (ringVertex n k)); reflexivity.
Qed.

End Ring.

(** C4, amended.  On a closed ring walk of at least three points whose
    vertices, the closing point apart, are pairwise 2D-distinct, every
    vertex [v] is claimed exactly once: the tally over all segments and both
    endpoint queries of each is 1, and among the segments having [v] as an
    endpoint exactly one answers [isContainingSegment] with true. *)
Theorem ring_vertex_claimed_once :
  forall ss s (k : nat) (v : CoordinateXY),
    activeSeq ss = Ret s ->
    3 <= getSize s <= SIZE_MAX ->
    isClosed equals2D ss = Ret true ->
    distinct2D equals2D (removelast s) = true ->
    nth_error s k = Some v ->
    claims equals2D ss v = Ret 1%nat
    /\ exists i0 : Z,
         validSegment s i0
         /\ (exists c0, getCoordinate ss i0 = Ret c0 /\ equals2D v c0 = true)
         /\ isContainingSegment equals2D ss i0 v = Ret true
         /\ forall (i : Z) (c0 c1 : CoordinateXY),
              validSegment s i ->
              getCoordinate ss i = Ret c0 ->
              getCoordinate ss (i + 1) = Ret c1 ->
              equals2D v c0 = true \/ equals2D v c1 = true ->
              isContainingSegment equals2D ss i v = Ret true ->
              i = i0.
Proof.
  intros ss s k v Ha Hfit Hcl Hd Hk.
  assert (Hlen : (k < length s)%nat) by (apply nth_error_Some; congruence).
  assert (Hk0 : (ringVertex (length s) k < length s - 1)%nat).
  { unfold ringVertex, getSize in *.
    destruct (Nat.eqb_spec k (length s - 1)); lia. }
  split.
  - unfold claims. rewrite (size_active _ _ Ha). simpl.
    replace (Z.to_nat (getSize s - 1)) with (length s - 1)%nat
      by (unfold getSize; lia).
    rewrite (map_ext_in _
               (fun i => if Nat.eqb i (ringVertex (length s) k)
                         then 1%nat else 0%nat)).
    + rewrite list_sum_indicator.
      destruct (Nat.ltb_spec (ringVertex (length s) k) (0 + (length s - 1)));
        [reflexivity | lia].
    + intros i Hin. apply in_seq in Hin.
      apply (ring_claimsOfSegment ss s Ha Hfit Hcl Hd v k i Hk). lia.
  - destruct (ring_segment ss s Ha Hfit Hcl (ringVertex (length s) k) Hk0)
      as [c0 [c1 [H0 [H1 [G0 [G1 [Hv Hown]]]]]]].
    assert (E0 : equals2D v c0 = true).
    { rewrite (ring_points ss s Ha Hfit Hcl Hd k _ v c0 Hk H0).
      apply Nat.eqb_eq. unfold ringVertex at 2.
      destruct (Nat.eqb_spec (ringVertex (length s) k) (length s - 1));
        [lia | reflexivity]. }
    exists (Z.of_nat (ringVertex (length s) k)).
    split; [exact Hv |]. split; [eauto |]. split.
    + rewrite Hown, E0. reflexivity.
    + intros i d0 d1 [Hlo [Hhi Hf]] D0 D1 Hend Hclaim.
      assert (Hi : (Z.to_nat i < length s - 1)%nat)
        by (unfold getSize in *; lia).
      destruct (ring_segment ss s Ha Hfit Hcl (Z.to_nat i) Hi)
        as [e0 [e1 [I0 [I1 [J0 [J1 [_ Hown']]]]]]].
      rewrite Z2Nat.id in J0, J1, Hown' by lia.
      assert (e0 = d0) by congruence. assert (e1 = d1) by congruence.
      subst e0 e1. rewrite Hown' in Hclaim.
      destruct (equals2D v d0) eqn:Ed0.
      * rewrite (ring_points ss s Ha Hfit Hcl Hd k _ v d0 Hk I0) in Ed0.
        apply Nat.eqb_eq in Ed0. rewrite Ed0. unfold ringVertex at 1.
        destruct (Nat.eqb_spec (Z.to_nat i) (length s - 1)); lia.
      * destruct Hend as [Hend | Hend]; [discriminate |].
        rewrite Hend in Hclaim. discriminate.
Qed.

(** ** Normalisation *)

Lemma hasRepeatedPoints_addNoRepeated (c : CoordinateXY) s :
  hasRepeatedPoints equals2D (c :: addNoRepeated equals2D c s) = false.
Proof.
  revert c. induction s as [| d r IH]; intros c.
  - reflexivity.
  - cbn [addNoRepeated]. destruct (equals2D c d) eqn:E.
    + apply IH.
    + change (equals2D c d
              || hasRepeatedPoints equals2D
                   (d :: addNoRepeated equals2D d r) = false).
      rewrite E, IH. reflexivity.
Qed.

Lemma hasRepeatedPoints_removeRepeatedPoints s :
  hasRepeatedPoints equals2D (removeRepeatedPoints equals2D s) = false.
Proof.
  destruct s as [| c r]; [reflexivity |].
  apply hasRepeatedPoints_addNoRepeated.
Qed.

Lemma addNoRepeated_fixed (c : CoordinateXY) s :
  hasRepeatedPoints equals2D (c :: s) = false ->
  addNoRepeated equals2D c s = s.
Proof.
  revert c. induction s as [| d r IH]; intros c H.
  - reflexivity.
  - change (equals2D c d || hasRepeatedPoints equals2D (d :: r) = false) in H.
    apply orb_false_iff in H. destruct H as [E H].
    cbn [addNoRepeated]. rewrite E, (IH d H). reflexivity.
Qed.

Lemma removeRepeatedPoints_fixed s :
  hasRepeatedPoints equals2D s = false -> removeRepeatedPoints equals2D s = s.
Proof.
  destruct s as [| c r]; [reflexivity |].
  intros H. unfold removeRepeatedPoints. rewrite (addNoRepeated_fixed c r H).
  reflexivity.
Qed.

Lemma readSeq_active ss s :
  activeSeq ss = Ret s -> readSeq ss = Ret (s, ss).
Proof. unfold readSeq. intros ->. reflexivity. Qed.

(** What [removeRepeated] leaves behind. *)
Lemma removeRepeated_active ss s :
  activeSeq ss = Ret s ->
  activeAfter (removeRepeated equals2D) ss
  = Ret (if hasRepeatedPoints equals2D s
         then removeRepeatedPoints equals2D s else s).
Proof.
  intros Ha. unfold activeAfter, after, removeRepeated, pbind.
  rewrite (readSeq_active ss s Ha).
  destruct (hasRepeatedPoints equals2D s); simpl.
  - rewrite (readSeq_active ss s Ha). reflexivity.
  - exact Ha.
Qed.

(** C9. On a sequence without consecutive duplicates [removeRepeated]
    changes nothing, and on every sequence a second call leaves the active
    sequence the first call left. *)
Theorem removeRepeated_noop_and_idempotent :
  forall ss s,
    activeSeq ss = Ret s ->
    (hasRepeatedPoints equals2D s = false ->
       removeRepeated equals2D ss = Ret (tt, ss)
       /\ activeAfter (removeRepeated equals2D) ss = Ret s)
    /\ exists once : list CoordinateXY,
         activeAfter (removeRepeated equals2D) ss = Ret once
         /\ activeAfter (removeRepeated equals2D ;;; removeRepeated equals2D) ss
            = Ret once.
Proof.
  intros ss s Ha. split.
  - intros Hno. split.
    + unfold removeRepeated, pbind. rewrite (readSeq_active ss s Ha), Hno.
      reflexivity.
    + rewrite (removeRepeated_active ss s Ha), Hno. reflexivity.
  - eexists. split; [exact (removeRepeated_active ss s Ha) |].
    pose proof (removeRepeated_active ss s Ha) as H1.
    unfold activeAfter, after, pbind in *.
    destruct (removeRepeated equals2D ss) as [[[] ss1] |]; [| discriminate].
    simpl in H1.
    pose proof (removeRepeated_active ss1 _ H1) as H2.
    unfold activeAfter, after in H2. rewrite H2.
    destruct (hasRepeatedPoints equals2D s) eqn:E.
    + rewrite hasRepeatedPoints_removeRepeatedPoints. reflexivity.
    + rewrite E. reflexivity.
Qed.

Variable isCCW : list CoordinateXY -> bool.

(** What [orientAndRemoveRepeated] leaves behind on a sequence without
    consecutive duplicates. *)
Lemma orientAndRemoveRepeated_no_repeats ss s (orientCW : bool) :
  activeSeq ss = Ret s ->
  hasRepeatedPoints equals2D s = false ->
  activeAfter (orientAndRemoveRepeated equals2D isCCW orientCW) ss
  = Ret (if Bool.eqb orientCW (isCCW s) then rev s else s).
Proof.
  intros Ha Hno. unfold activeAfter, after, orientAndRemoveRepeated, pbind.
  rewrite (readSeq_active ss s Ha), Hno.
  destruct (Bool.eqb orientCW (isCCW s)); simpl.
  - rewrite (readSeq_active ss s Ha). reflexivity.
  - exact Ha.
Qed.

(** C8. On a sequence without consecutive duplicates,
    [orientAndRemoveRepeated] changes nothing when the orientation is the
    requested one, and otherwise leaves the points in reverse order, a
    permutation of the original. *)
Theorem orientAndRemoveRepeated_no_repeats_noop_or_reverse :
  forall ss s (orientCW : bool),
    activeSeq ss = Ret s ->
    hasRepeatedPoints equals2D s = false ->
    (orientCW = negb (isCCW s) ->
       orientAndRemoveRepeated equals2D isCCW orientCW ss = Ret (tt, ss)
       /\ activeAfter (orientAndRemoveRepeated equals2D isCCW orientCW) ss
          = Ret s)
    /\ (orientCW = isCCW s ->
       exists flipped : list CoordinateXY,
         activeAfter (orientAndRemoveRepeated equals2D isCCW orientCW) ss
         = Ret flipped
         /\ flipped = rev s
         /\ Permutation s flipped).
Proof.
  intros ss s orientCW Ha Hno.
  pose proof (orientAndRemoveRepeated_no_repeats ss s orientCW Ha Hno) as H.
  split; intros ->.
  - split.
    + unfold orientAndRemoveRepeated, pbind.
      rewrite (readSeq_active ss s Ha), Hno.
      destruct (isCCW s); reflexivity.
    + rewrite H. destruct (isCCW s); reflexivity.
  - exists (rev s). rewrite H, eqb_reflx.
    split; [reflexivity |]. split; [reflexivity |]. apply Permutation_rev.
Qed.

(** With both conditions at once on a walk that still borrows its sequence,
    the de-duplicated and reversed sequence stored first is overwritten by
    the reversed clone of the original: the duplicates stay. *)
Lemma orientAndRemoveRepeated_both ss (orientCW : bool) :
  seq ss = ToCaller ->
  hasRepeatedPoints equals2D (pts ss) = true ->
  orientCW = isCCW (pts ss) ->
  activeAfter (orientAndRemoveRepeated equals2D isCCW orientCW) ss
  = Ret (rev (pts ss)).
Proof.
  destruct ss as [p st sq a d i r poly parent]. simpl.
  intros -> Hrep ->.
  unfold activeAfter, after, orientAndRemoveRepeated, pbind, readSeq, activeSeq.
  cbn [seq pts]. rewrite Hrep, eqb_reflx. reflexivity.
Qed.

(** The same call on a walk that already owns its sequence reads the
    sequence it has just released. *)
Lemma orientAndRemoveRepeated_both_owned ss s (orientCW : bool) :
  seq ss = ToStore ->
  csStore ss = Some s ->
  hasRepeatedPoints equals2D s = true ->
  orientCW = isCCW s ->
  orientAndRemoveRepeated equals2D isCCW orientCW ss = Undefined.
Proof.
  destruct ss as [p st sq a d i r poly parent]. simpl.
  intros -> -> Hrep ->.
  unfold orientAndRemoveRepeated, pbind, readSeq, activeSeq.
  cbn [seq csStore]. rewrite Hrep, eqb_reflx. reflexivity.
Qed.

(** Away from that overwrite the procedure is idempotent: without
    consecutive duplicates, and with an orientation test that reversal
    inverts, a second call with the same target changes nothing. *)
Lemma hasRepeatedPoints_snoc s (a b : CoordinateXY) :
  hasRepeatedPoints equals2D (s ++ [a; b])
  = hasRepeatedPoints equals2D (s ++ [a]) || equals2D a b.
Proof.
  induction s as [| c r IH].
  - simpl. rewrite orb_false_r. reflexivity.
  - destruct r as [| d r'].
    + simpl. rewrite !orb_false_r. reflexivity.
    + change (equals2D c d || hasRepeatedPoints equals2D ((d :: r') ++ [a; b])
              = equals2D c d || hasRepeatedPoints equals2D ((d :: r') ++ [a])
                || equals2D a b).
      rewrite IH, orb_assoc. reflexivity.
Qed.

Lemma hasRepeatedPoints_rev s :
  hasRepeatedPoints equals2D (rev s) = hasRepeatedPoints equals2D s.
Proof.
  induction s as [| a r IH]; [reflexivity |].
  destruct r as [| b r']; [reflexivity |].
  change (rev (a :: b :: r')) with ((rev r' ++ [b]) ++ [a]).
  rewrite <- app_assoc. change ([b] ++ [a]) with [b; a].
  rewrite hasRepeatedPoints_snoc.
  change (rev r' ++ [b]) with (rev (b :: r')). rewrite IH.
  change (hasRepeatedPoints equals2D (a :: b :: r'))
    with (equals2D a b || hasRepeatedPoints equals2D (b :: r')).
  rewrite (equals2D_sym b a). apply orb_comm.
Qed.

Lemma orientAndRemoveRepeated_twice_no_repeats ss s (orientCW : bool) :
  activeSeq ss = Ret s ->
  hasRepeatedPoints equals2D s = false ->
  isCCW (rev s) = negb (isCCW s) ->
  activeAfter (orientAndRemoveRepeated equals2D isCCW orientCW ;;;
               orientAndRemoveRepeated equals2D isCCW orientCW) ss
  = activeAfter (orientAndRemoveRepeated equals2D isCCW orientCW) ss.
Proof.
  intros Ha Hno Hrev.
  pose proof (orientAndRemoveRepeated_no_repeats ss s orientCW Ha Hno) as H1.
  rewrite H1. unfold activeAfter, after, pbind in *.
  destruct (orientAndRemoveRepeated equals2D isCCW orientCW ss)
    as [[[] ss1] |]; [| discriminate].
  simpl in H1.
  assert (Hno1 : hasRepeatedPoints equals2D
                   (if Bool.eqb orientCW (isCCW s) then rev s else s) = false).
  { destruct (Bool.eqb orientCW (isCCW s));
      [rewrite hasRepeatedPoints_rev |]; exact Hno. }
  pose proof (orientAndRemoveRepeated_no_repeats ss1 _ orientCW H1 Hno1) as H2.
  unfold activeAfter, after in H2. rewrite H2.
  destruct (Bool.eqb orientCW (isCCW s)) eqn:E.
  - rewrite Hrev. destruct orientCW, (isCCW s); try discriminate; reflexivity.
  - rewrite E. reflexivity.
Qed.

End Properties.

(** * The scenarios, on points with integer ordinates *)

Module GridFacts.
Import Grid.

Lemma grid_equals2D_refl (a : XY) : equals2D a a = true.
Proof. unfold equals2D. rewrite !Z.eqb_refl. reflexivity. Qed.

Lemma grid_equals2D_sym (a b : XY) : equals2D a b = equals2D b a.
Proof.
  unfold equals2D. rewrite (Z.eqb_sym (x a)), (Z.eqb_sym (y a)). reflexivity.
Qed.

Lemma grid_equals2D_trans (a b c : XY) :
  equals2D a b = true -> equals2D b c = true -> equals2D a c = true.
Proof.
  unfold equals2D. rewrite !andb_true_iff, !Z.eqb_eq.
  intros [-> ->] [-> ->]. split; reflexivity.
Qed.

(** Reversing a sequence negates its signed area. *)
Lemma signedArea2_snoc (s : list XY) (p q : XY) :
  signedArea2 (s ++ [p; q])
  = signedArea2 (s ++ [p]) + (x p * y q - x q * y p).
Proof.
  induction s as [| a r IH].
  - simpl. lia.
  - destruct r as [| b r'].
    + simpl. lia.
    + change (signedArea2 ((a :: b :: r') ++ [p; q]))
        with (x a * y b - x b * y a + signedArea2 ((b :: r') ++ [p; q])).
      change (signedArea2 ((a :: b :: r') ++ [p]))
        with (x a * y b - x b * y a + signedArea2 ((b :: r') ++ [p])).
      rewrite IH. lia.
Qed.

Lemma signedArea2_rev (s : list XY) : signedArea2 (rev s) = - signedArea2 s.
Proof.
  induction s as [| a r IH]; [reflexivity |].
  destruct r as [| b r']; [reflexivity |].
  change (signedArea2 (a :: b :: r'))
    with (x a * y b - x b * y a + signedArea2 (b :: r')).
  change (rev (a :: b :: r')) with ((rev r' ++ [b]) ++ [a]).
  rewrite <- app_assoc. change ([b] ++ [a]) with [b; a].
  rewrite signedArea2_snoc.
  change (rev r' ++ [b]) with (rev (b :: r')). rewrite IH. lia.
Qed.

Lemma isCCW_rev (s : list XY) :
  signedArea2 s <> 0 -> isCCW (rev s) = negb (isCCW s).
Proof.
  intros Hne. unfold isCCW. rewrite signedArea2_rev.
  destruct (Z.ltb_spec 0 (- signedArea2 s)), (Z.ltb_spec 0 (signedArea2 s));
    simpl; try reflexivity; lia.
Qed.

End GridFacts.

(** C7. On the open line [(0,0), (5,0), (10,0)], whatever the operand, the
    element and the parent geometry, [createNodeSection 0 (5,0)] returns a
    node section at a vertex with previous point (0,0), point (5,0) and next
    point (10,0). *)
Theorem createNodeSection_at_middle_vertex :
  forall (isA : bool) (id : Z) (parent : GeometryRef),
    createNodeSection Grid.equals2D
      (borrowed [Grid.P 0 0; Grid.P 5 0; Grid.P 10 0]
         isA Dimension.L id (-1) None parent)
      0 (Grid.P 5 0)
    = Ret (mkNodeSection isA Dimension.L id (-1) None
             true (Some (Grid.P 0 0)) (Grid.P 5 0) (Some (Grid.P 10 0))).
Proof. intros isA id parent. reflexivity. Qed.

(** C1, on the code.  The square ring with its leading duplicate is
    counter-clockwise and has a repeated point, so a clockwise request meets
    both conditions; the walk is left with the reversed original, the
    duplicate still there, and not with the five-point ring. *)
Theorem orientAndRemoveRepeated_square_keeps_duplicate :
  Grid.isCCW Grid.square = true
  /\ hasRepeatedPoints Grid.equals2D Grid.square = true
  /\ activeAfter (orientAndRemoveRepeated Grid.equals2D Grid.isCCW true)
       (Grid.ring Grid.square)
     = Ret [Grid.P 0 0; Grid.P 0 10; Grid.P 10 10; Grid.P 10 0;
            Grid.P 0 0; Grid.P 0 0]
  /\ activeAfter (orientAndRemoveRepeated Grid.equals2D Grid.isCCW true)
       (Grid.ring Grid.square)
     <> Ret [Grid.P 0 0; Grid.P 0 10; Grid.P 10 10; Grid.P 10 0; Grid.P 0 0].
Proof.
  split; [reflexivity |]. split; [reflexivity |]. split; [reflexivity |].
  vm_compute. discriminate.
Qed.

(** C2, on the code.  On the same ring a second clockwise request finds the
    orientation right and the duplicate still there, and removes it: two
    calls do not leave what one call leaves. *)
Theorem orientAndRemoveRepeated_square_twice_differs :
  activeAfter (orientAndRemoveRepeated Grid.equals2D Grid.isCCW true)
    (Grid.ring Grid.square)
  = Ret [Grid.P 0 0; Grid.P 0 10; Grid.P 10 10; Grid.P 10 0;
         Grid.P 0 0; Grid.P 0 0]
  /\ activeAfter
       (orientAndRemoveRepeated Grid.equals2D Grid.isCCW true ;;;
        orientAndRemoveRepeated Grid.equals2D Grid.isCCW true)
       (Grid.ring Grid.square)
     = Ret [Grid.P 0 0; Grid.P 0 10; Grid.P 10 10; Grid.P 10 0; Grid.P 0 0]
  /\ activeAfter
       (orientAndRemoveRepeated Grid.equals2D Grid.isCCW true ;;;
        orientAndRemoveRepeated Grid.equals2D Grid.isCCW true)
       (Grid.ring Grid.square)
     <> activeAfter (orientAndRemoveRepeated Grid.equals2D Grid.isCCW true)
          (Grid.ring Grid.square).
Proof.
  split; [reflexivity |]. split; [reflexivity |].
  vm_compute. discriminate.
Qed.

(** ** The claims at concrete walks *)

(** C10 on the line (0,0), (0,0), (1,0): segments 0 and 1 both claim
    (0,0). *)
Lemma isContainingSegment_start_vertex_first_witness :
  isContainingSegment Grid.equals2D (Grid.line Samples.stutter) 0 (Grid.P 0 0)
  = Ret true
  /\ isContainingSegment Grid.equals2D (Grid.line Samples.stutter) 1 (Grid.P 0 0)
     = Ret true.
Proof.
  destruct (isContainingSegment_start_vertex_first Grid.equals2D
              (Grid.line Samples.stutter) 0 (Grid.P 0 0) (Grid.P 0 0)
              eq_refl eq_refl)
    as [Hzero Hnext].
  split; [exact Hzero | exact (Hnext (Grid.P 0 0) eq_refl eq_refl)].
Defined.

(** C3 as stated fails on the line (0,0), (0,0), (1,0): the point (0,0)
    equals the end vertex of segment 0, the walk is open and segment 0 is
    not the final one, yet the segment claims the point, which is its start
    vertex as well. *)
Lemma isContainingSegment_end_vertex_counterexample :
  ~ (forall (ss : RelateSegmentString Grid.XY) (s : list Grid.XY)
            (segIndex : Z) (pt c1 : Grid.XY) (closed : bool),
        activeSeq ss = Ret s ->
        validSegment s segIndex ->
        getCoordinate ss (segIndex + 1) = Ret c1 ->
        isClosed Grid.equals2D ss = Ret closed ->
        Grid.equals2D pt c1 = true ->
        isContainingSegment Grid.equals2D ss segIndex pt
        = Ret (negb closed && (segIndex =? getSize s - 2))).
Proof.
  intros H.
  specialize (H (Grid.line Samples.stutter) Samples.stutter 0
                (Grid.P 0 0) (Grid.P 0 0) false eq_refl).
  assert (Hv : validSegment Samples.stutter 0) by valid_segment.
  specialize (H Hv eq_refl eq_refl eq_refl).
  vm_compute in H. discriminate.
Qed.

(** C3, amended, on the open line (0,0), (5,0), (10,0): the final segment
    claims the terminal vertex, the first segment declines the shared
    vertex (5,0). *)
Lemma isContainingSegment_cases_witness :
  isContainingSegment Grid.equals2D (Grid.line Samples.threePoints) 1 (Grid.P 10 0)
  = Ret true
  /\ isContainingSegment Grid.equals2D (Grid.line Samples.threePoints) 0 (Grid.P 5 0)
     = Ret false
  /\ isContainingSegment Grid.equals2D (Grid.line Samples.twoPoints) 0 (Grid.P 5 0)
     = Ret true.
Proof.
  assert (V1 : validSegment Samples.threePoints 1) by valid_segment.
  assert (V0 : validSegment Samples.threePoints 0) by valid_segment.
  assert (V2 : validSegment Samples.twoPoints 0) by valid_segment.
  split; [| split].
  - destruct (isContainingSegment_cases Grid.equals2D
                (Grid.line Samples.threePoints) Samples.threePoints 1
                (Grid.P 10 0) (Grid.P 5 0) (Grid.P 10 0) false
                eq_refl V1 eq_refl eq_refl eq_refl)
      as [_ [_ [Hend _]]].
    apply Hend; reflexivity.
  - destruct (isContainingSegment_cases Grid.equals2D
                (Grid.line Samples.threePoints) Samples.threePoints 0
                (Grid.P 5 0) (Grid.P 0 0) (Grid.P 5 0) false
                eq_refl V0 eq_refl eq_refl eq_refl)
      as [_ [_ [Hend _]]].
    apply Hend; reflexivity.
  - destruct (isContainingSegment_cases Grid.equals2D
                (Grid.line Samples.twoPoints) Samples.twoPoints 0
                (Grid.P 5 0) (Grid.P 0 0) (Grid.P 5 0) false
                eq_refl V2 eq_refl eq_refl eq_refl)
      as [_ [_ [_ Htwo]]].
    apply Htwo; reflexivity.
Defined.

(** C4 as stated fails on the closed ring (0,0), (0,0), (1,0), (0,1), (0,0):
    the vertex (0,0) is claimed by segment 0 and by segment 1, and the
    tally of the walk for it is 3. *)
Lemma ring_vertex_claimed_once_counterexample :
  ~ (forall (ss : RelateSegmentString Grid.XY) (s : list Grid.XY)
            (k : nat) (v : Grid.XY),
        activeSeq ss = Ret s ->
        getSize s <= SIZE_MAX ->
        isClosed Grid.equals2D ss = Ret true ->
        nth_error s k = Some v ->
        claims Grid.equals2D ss v = Ret 1%nat
        /\ exists i0 : Z,
             validSegment s i0
             /\ (exists c0, getCoordinate ss i0 = Ret c0
                            /\ Grid.equals2D v c0 = true)
             /\ isContainingSegment Grid.equals2D ss i0 v = Ret true
             /\ forall (i : Z) (c0 c1 : Grid.XY),
                  validSegment s i ->
                  getCoordinate ss i = Ret c0 ->
                  getCoordinate ss (i + 1) = Ret c1 ->
                  Grid.equals2D v c0 = true \/ Grid.equals2D v c1 = true ->
                  isContainingSegment Grid.equals2D ss i v = Ret true ->
                  i = i0).
Proof.
  intros H.
  assert (Hfit : getSize Samples.stutterRing <= SIZE_MAX)
    by (unfold getSize, SIZE_MAX; simpl; lia).
  destruct (H (Grid.ring Samples.stutterRing) Samples.stutterRing 0%nat
              (Grid.P 0 0) eq_refl Hfit eq_refl eq_refl)
    as [Htally [i0 [_ [_ [_ Honly]]]]].
  assert (H0 : 0 = i0).
  { apply (Honly 0 (Grid.P 0 0) (Grid.P 0 0));
      [valid_segment | reflexivity | reflexivity | left; reflexivity
       | reflexivity]. }
  assert (H1 : 1 = i0).
  { apply (Honly 1 (Grid.P 0 0) (Grid.P 1 0));
      [valid_segment | reflexivity | reflexivity | left; reflexivity
       | reflexivity]. }
  lia.
Qed.

(** The tally on that ring, and on a ring that passes twice through
    (1,1) without any repeated consecutive point. *)
Example claims_on_repeated_vertices :
  claims Grid.equals2D (Grid.ring Samples.stutterRing) (Grid.P 0 0) = Ret 3%nat
  /\ claims Grid.equals2D (Grid.ring Samples.bowTie) (Grid.P 1 1) = Ret 2%nat
  /\ hasRepeatedPoints Grid.equals2D Samples.bowTie = false.
Proof. repeat split. Qed.

(** C4, amended, on the closed square (0,0), (10,0), (10,10), (0,10), (0,0)
    and its vertex (10,10). *)
Lemma ring_vertex_claimed_once_witness :
  claims Grid.equals2D (Grid.ring Samples.cleanSquare) (Grid.P 10 10) = Ret 1%nat
  /\ exists i0 : Z,
       validSegment Samples.cleanSquare i0
       /\ (exists c0, getCoordinate (Grid.ring Samples.cleanSquare) i0 = Ret c0
                      /\ Grid.equals2D (Grid.P 10 10) c0 = true)
       /\ isContainingSegment Grid.equals2D (Grid.ring Samples.cleanSquare)
            i0 (Grid.P 10 10) = Ret true
       /\ forall (i : Z) (c0 c1 : Grid.XY),
            validSegment Samples.cleanSquare i ->
            getCoordinate (Grid.ring Samples.cleanSquare) i = Ret c0 ->
            getCoordinate (Grid.ring Samples.cleanSquare) (i + 1) = Ret c1 ->
            Grid.equals2D (Grid.P 10 10) c0 = true
            \/ Grid.equals2D (Grid.P 10 10) c1 = true ->
            isContainingSegment Grid.equals2D (Grid.ring Samples.cleanSquare)
              i (Grid.P 10 10) = Ret true ->
            i = i0.
Proof.
  apply (ring_vertex_claimed_once Grid.equals2D
           GridFacts.grid_equals2D_refl GridFacts.grid_equals2D_sym
           GridFacts.grid_equals2D_trans
           (Grid.ring Samples.cleanSquare) Samples.cleanSquare 2%nat
           (Grid.P 10 10));
    try reflexivity.
  unfold getSize, SIZE_MAX. simpl. lia.
Defined.

(** C5 on the closed square and on the open line (0,0), (5,0), (10,0). *)
Lemma neighbours_absent_only_at_open_ends_witness :
  ((exists v, prevVertex Grid.equals2D (Grid.ring Samples.cleanSquare) 0
                (Grid.P 0 0) = Ret (Some v))
   /\ (exists v, nextVertex Grid.equals2D (Grid.ring Samples.cleanSquare) 0
                   (Grid.P 0 0) = Ret (Some v))
   /\ (exists v, getCoordinate (Grid.ring Samples.cleanSquare)
                   (getSize Samples.cleanSquare - 2) = Ret v
                 /\ prevVertex Grid.equals2D (Grid.ring Samples.cleanSquare) 0
                      (Grid.P 0 0) = Ret (Some v)))
  /\ ((exists r, prevVertex Grid.equals2D (Grid.line Samples.threePoints) 1
                   (Grid.P 10 0) = Ret r
                 /\ (r = None <->
                     Grid.equals2D (Grid.P 0 0) (Grid.P 10 0) = true /\ 1 = 0))
      /\ (exists r, nextVertex Grid.equals2D (Grid.line Samples.threePoints) 1
                      (Grid.P 10 0) = Ret r
                    /\ (r = None <->
                        Grid.equals2D (Grid.P 10 0) (Grid.P 10 0) = true
                        /\ 1 = getSize Samples.threePoints - 2))).
Proof.
  assert (V0 : validSegment Samples.cleanSquare 0) by valid_segment.
  assert (V1 : validSegment Samples.threePoints 1) by valid_segment.
  split.
  - exact (proj1 (neighbours_absent_only_at_open_ends Grid.equals2D
                    GridFacts.grid_equals2D_refl
                    (Grid.ring Samples.cleanSquare) Samples.cleanSquare 0
                    (Grid.P 0 0) (Grid.P 0 0) (Grid.P 0 0)
                    eq_refl V0 eq_refl eq_refl) eq_refl).
  - exact (proj2 (neighbours_absent_only_at_open_ends Grid.equals2D
                    GridFacts.grid_equals2D_refl
                    (Grid.line Samples.threePoints) Samples.threePoints 1
                    (Grid.P 10 0) (Grid.P 0 0) (Grid.P 10 0)
                    eq_refl V1 eq_refl eq_refl) eq_refl).
Defined.

(** C6 on the open line (0,0), (5,0) and its end vertex. *)
Lemma nextVertex_wraps_only_on_sentinel_witness :
  nextVertex Grid.equals2D (Grid.line Samples.twoPoints) INDEX_UNKNOWN (Grid.P 5 0)
  = Ret (Some (Grid.P 0 0))
  /\ nextVertex Grid.equals2D (Grid.line Samples.twoPoints) 0 (Grid.P 5 0)
     = Ret None.
Proof.
  destruct (nextVertex_wraps_only_on_sentinel Grid.equals2D
              (Grid.line Samples.twoPoints) (Grid.P 0 0) (Grid.P 5 0)
              (Grid.P 5 0) eq_refl)
    as [Hsentinel [_ Hopen]].
  split; [exact Hsentinel | apply Hopen; reflexivity].
Defined.

(** C8 on the clean square, which is counter-clockwise: a counter-clockwise
    request changes nothing, a clockwise request reverses it. *)
Lemma orientAndRemoveRepeated_no_repeats_witness :
  (orientAndRemoveRepeated Grid.equals2D Grid.isCCW false
     (Grid.ring Samples.cleanSquare)
   = Ret (tt, Grid.ring Samples.cleanSquare)
   /\ activeAfter (orientAndRemoveRepeated Grid.equals2D Grid.isCCW false)
        (Grid.ring Samples.cleanSquare)
      = Ret Samples.cleanSquare)
  /\ exists flipped : list Grid.XY,
       activeAfter (orientAndRemoveRepeated Grid.equals2D Grid.isCCW true)
         (Grid.ring Samples.cleanSquare)
       = Ret flipped
       /\ flipped = rev Samples.cleanSquare
       /\ Permutation Samples.cleanSquare flipped.
Proof.
  split.
  - exact (proj1 (orientAndRemoveRepeated_no_repeats_noop_or_reverse
                    Grid.equals2D Grid.isCCW
                    (Grid.ring Samples.cleanSquare) Samples.cleanSquare false
                    eq_refl eq_refl) eq_refl).
  - exact (proj2 (orientAndRemoveRepeated_no_repeats_noop_or_reverse
                    Grid.equals2D Grid.isCCW
                    (Grid.ring Samples.cleanSquare) Samples.cleanSquare true
                    eq_refl eq_refl) eq_refl).
Defined.

(** C9 on the clean square (nothing to remove) and on the square with the
    repeated first vertex. *)
Lemma removeRepeated_noop_and_idempotent_witness :
  (removeRepeated Grid.equals2D (Grid.ring Samples.cleanSquare)
   = Ret (tt, Grid.ring Samples.cleanSquare)
   /\ activeAfter (removeRepeated Grid.equals2D) (Grid.ring Samples.cleanSquare)
      = Ret Samples.cleanSquare)
  /\ exists once : list Grid.XY,
       activeAfter (removeRepeated Grid.equals2D) (Grid.ring Grid.square)
       = Ret once
       /\ activeAfter (removeRepeated Grid.equals2D ;;; removeRepeated Grid.equals2D)
            (Grid.ring Grid.square)
          = Ret once.
Proof.
  split.
  - exact (proj1 (removeRepeated_noop_and_idempotent Grid.equals2D
                    (Grid.ring Samples.cleanSquare) Samples.cleanSquare
                    eq_refl) eq_refl).
  - exact (proj2 (removeRepeated_noop_and_idempotent Grid.equals2D
                    (Grid.ring Grid.square) Grid.square eq_refl)).
Defined.

(** * Further properties of the walk *)

Section NodeSections.

Context {CoordinateXY : Type}.
Variable equals2D : CoordinateXY -> CoordinateXY -> bool.

Implicit Types (ss : RelateSegmentString CoordinateXY)
               (s : list CoordinateXY)
               (pt : CoordinateXY).

Lemma isClosed_defined ss s :
  activeSeq ss = Ret s -> 0 < getSize s ->
  exists closed : bool, isClosed equals2D ss = Ret closed.
Proof.
  intros Ha Hn. unfold isClosed. rewrite Ha. simpl.
  destruct s as [| p r]; [unfold getSize in Hn; simpl in Hn; lia |].
  eauto.
Qed.

Lemma isClosed_getCoordinate ss s (front back : CoordinateXY) :
  activeSeq ss = Ret s ->
  getCoordinate ss 0 = Ret front ->
  getCoordinate ss (getSize s - 1) = Ret back ->
  isClosed equals2D ss = Ret (equals2D front back).
Proof.
  intros Ha G0 Gl.
  rewrite (getCoordinate_active ss s 0 Ha) in G0.
  rewrite (getCoordinate_active ss s (getSize s - 1) Ha) in Gl.
  exact (isClosed_spec equals2D ss s front back Ha G0 Gl).
Qed.

(** The node section of a valid segment, in terms of the vertices around
    it: [before] is the vertex ahead of the segment start (around the ring
    for segment 0), [following] the vertex past the segment end (around the
    ring for the final segment). *)
Lemma createNodeSection_body ss s (segIndex : Z) pt
    (c0 c1 before following : CoordinateXY) (closed : bool) :
  activeSeq ss = Ret s ->
  validSegment s segIndex ->
  getCoordinate ss segIndex = Ret c0 ->
  getCoordinate ss (segIndex + 1) = Ret c1 ->
  getCoordinate ss (if segIndex =? 0 then getSize s - 2 else segIndex - 1)
  = Ret before ->
  getCoordinate ss (if segIndex <? getSize s - 2 then segIndex + 2 else 1)
  = Ret following ->
  isClosed equals2D ss = Ret closed ->
  createNodeSection equals2D ss segIndex pt
  = Ret (mkNodeSection (m_isA ss) (m_dimension ss) (m_id ss) (m_ringId ss)
           (m_parentPolygonal ss)
           (equals2D pt c0 || equals2D pt c1)
           (if negb (equals2D c0 pt) then Some c0
            else if 0 <? segIndex then Some before
            else if closed then Some before else None)
           pt
           (if negb (equals2D c1 pt) then Some c1
            else if segIndex <? getSize s - 2 then Some following
            else if closed then Some following else None)).
Proof.
  intros Ha Hv H0 H1 Hb Hf Hcl.
  destruct (prevVertex_body equals2D ss s segIndex pt c0 closed Ha Hv H0 Hcl)
    as [before' [Hb' Hp]].
  destruct (nextVertex_body equals2D ss s segIndex pt c1 closed Ha Hv H1 Hcl)
    as [following' [Hf' Hn]].
  assert (before' = before) by congruence.
  assert (following' = following) by congruence. subst before' following'.
  destruct Hv as [Hlo [Hhi Hfit]].
  unfold createNodeSection. rewrite H0. simpl. in_range.
  rewrite H1. simpl. rewrite Hp. simpl. rewrite Hn. reflexivity.
Qed.

(** X1. On every valid segment [createNodeSection] returns: the section
    carries the walk's operand flag, dimension, ids and polygon and the
    query point itself, it is at a vertex exactly when the point 2D-equals
    one of the two segment ends, its neighbours are what [prevVertex] and
    [nextVertex] return, and a neighbour is the segment's own end whenever
    that end differs from the point. *)
Theorem createNodeSection_on_valid_segment :
  forall ss s (segIndex : Z) pt (c0 c1 : CoordinateXY),
    activeSeq ss = Ret s ->
    validSegment s segIndex ->
    getCoordinate ss segIndex = Ret c0 ->
    getCoordinate ss (segIndex + 1) = Ret c1 ->
    exists ns : NodeSection CoordinateXY,
      createNodeSection equals2D ss segIndex pt = Ret ns
      /\ ns_isA ns = isA ss
      /\ ns_dim ns = m_dimension ss
      /\ ns_id ns = m_id ss
      /\ ns_ringId ns = m_ringId ss
      /\ ns_poly ns = getPolygonal ss
      /\ ns_nodePt ns = pt
      /\ ns_isNodeAtVertex ns = equals2D pt c0 || equals2D pt c1
      /\ prevVertex equals2D ss segIndex pt = Ret (ns_prev ns)
      /\ nextVertex equals2D ss segIndex pt = Ret (ns_next ns)
      /\ (equals2D c0 pt = false -> ns_prev ns = Some c0)
      /\ (equals2D c1 pt = false -> ns_next ns = Some c1).
Proof.
  intros ss s segIndex pt c0 c1 Ha Hv H0 H1.
  pose proof Hv as [Hlo [Hhi Hfit]].
  destruct (isClosed_defined ss s Ha) as [closed Hcl]; [lia |].
  destruct (prevVertex_body equals2D ss s segIndex pt c0 closed Ha Hv H0 Hcl)
    as [before [Hb Hp]].
  destruct (nextVertex_body equals2D ss s segIndex pt c1 closed Ha Hv H1 Hcl)
    as [following [Hf Hn]].
  eexists. split.
  - exact (createNodeSection_body ss s segIndex pt c0 c1 before following
             closed Ha Hv H0 H1 Hb Hf Hcl).
  - simpl. repeat split; try assumption.
    + intros ->. reflexivity.
    + intros ->. reflexivity.
Qed.

(** X2. The sentinel index is no segment of any walk: [createNodeSection],
    [isContainingSegment] and [prevVertex] called with it read the vertex at
    the largest index there is, outside the sequence.  The two-point special
    case of [nextVertex] is therefore out of reach of [createNodeSection]. *)
Theorem sentinel_index_out_of_range :
  forall ss s pt,
    activeSeq ss = Ret s ->
    getSize s <= SIZE_MAX ->
    createNodeSection equals2D ss INDEX_UNKNOWN pt = Undefined
    /\ isContainingSegment equals2D ss INDEX_UNKNOWN pt = Undefined
    /\ prevVertex equals2D ss INDEX_UNKNOWN pt = Undefined.
Proof.
  intros ss s pt Ha Hfit.
  assert (Hout : getCoordinate ss INDEX_UNKNOWN = Undefined).
  { rewrite (getCoordinate_active ss s _ Ha).
    destruct (getAt s INDEX_UNKNOWN) as [c |] eqn:E; [| reflexivity].
    apply getAt_Ret in E. unfold INDEX_UNKNOWN in E. lia. }
  unfold createNodeSection, isContainingSegment, prevVertex.
  rewrite Hout. repeat split.
Qed.

End NodeSections.

Section AdjacentSegments.

Context {CoordinateXY : Type}.
Variable equals2D : CoordinateXY -> CoordinateXY -> bool.

Implicit Types (ss : RelateSegmentString CoordinateXY)
               (s : list CoordinateXY)
               (pt : CoordinateXY).

Hypothesis equals2D_sym :
  forall a b : CoordinateXY, equals2D a b = equals2D b a.

(** X3. A vertex shared by two consecutive segments gets the same node
    section from either of them: for a point that 2D-equals the vertex
    between segments [i] and [i + 1] and neither of the two vertices around
    it, both calls return the section at a vertex whose previous point is
    the start of segment [i] and whose next point is the end of segment
    [i + 1]. *)
Theorem createNodeSection_shared_vertex :
  forall ss s (i : Z) pt (a b c : CoordinateXY),
    activeSeq ss = Ret s ->
    validSegment s i ->
    validSegment s (i + 1) ->
    getCoordinate ss i = Ret a ->
    getCoordinate ss (i + 1) = Ret b ->
    getCoordinate ss (i + 2) = Ret c ->
    equals2D pt b = true ->
    equals2D pt a = false ->
    equals2D pt c = false ->
    createNodeSection equals2D ss i pt
    = Ret (mkNodeSection (m_isA ss) (m_dimension ss) (m_id ss) (m_ringId ss)
             (m_parentPolygonal ss) true (Some a) pt (Some c))
    /\ createNodeSection equals2D ss (i + 1) pt
       = createNodeSection equals2D ss i pt.
Proof.
  intros ss s i pt a b c Ha Hv Hv' Ga Gb Gc Eb Ea Ec.
  pose proof Hv as [Hlo [Hhi Hfit]]. pose proof Hv' as [_ [Hhi' _]].
  destruct (isClosed_defined equals2D ss s Ha) as [closed Hcl]; [lia |].
  destruct (getCoordinate_in_range ss s
              (if i =? 0 then getSize s - 2 else i - 1) Ha)
    as [before Hb]; [destruct (Z.eqb_spec i 0); lia |].
  destruct (getCoordinate_in_range ss s
              (if i + 1 <? getSize s - 2 then i + 1 + 2 else 1) Ha)
    as [following Hf];
    [destruct (Z.ltb_spec (i + 1) (getSize s - 2)); lia |].
  assert (Hc : getCoordinate ss (if i <? getSize s - 2 then i + 2 else 1)
               = Ret c).
  { destruct (Z.ltb_spec i (getSize s - 2)); [exact Gc | lia]. }
  assert (Ha' : getCoordinate ss (if i + 1 =? 0 then getSize s - 2 else i + 1 - 1)
                = Ret a).
  { destruct (Z.eqb_spec (i + 1) 0); [lia |].
    replace (i + 1 - 1) with i by lia. exact Ga. }
  assert (Gc' : getCoordinate ss (i + 1 + 1) = Ret c)
    by (replace (i + 1 + 1) with (i + 2) by lia; exact Gc).
  assert (first : createNodeSection equals2D ss i pt
            = Ret (mkNodeSection (m_isA ss) (m_dimension ss) (m_id ss)
                     (m_ringId ss) (m_parentPolygonal ss) true (Some a) pt
                     (Some c))).
  { rewrite (createNodeSection_body equals2D ss s i pt a b before c closed
               Ha Hv Ga Gb Hb Hc Hcl).
    rewrite (equals2D_sym a pt), (equals2D_sym b pt), Ea, Eb. simpl.
    destruct (Z.ltb_spec i (getSize s - 2)); [reflexivity | lia]. }
  split; [exact first |].
  rewrite first.
  rewrite (createNodeSection_body equals2D ss s (i + 1) pt b c a following
             closed Ha Hv' Gb Gc' Ha' Hf Hcl).
  rewrite (equals2D_sym b pt), (equals2D_sym c pt), Eb, Ec. simpl.
  destruct (Z.ltb_spec 0 (i + 1)); [reflexivity | lia].
Qed.

Hypothesis equals2D_trans :
  forall a b c : CoordinateXY,
    equals2D a b = true -> equals2D b c = true -> equals2D a c = true.

(** X4. Around the closing point of a ring the same holds: for a point
    that 2D-equals the first vertex of a closed ring of at least three
    points and neither the second nor the second-to-last vertex, segment 0
    and the final segment return the same node section, at a vertex, with
    the second-to-last vertex before the point and the second vertex after
    it. *)
Theorem createNodeSection_closing_vertex :
  forall ss s pt (front second penult : CoordinateXY),
    activeSeq ss = Ret s ->
    3 <= getSize s <= SIZE_MAX ->
    isClosed equals2D ss = Ret true ->
    getCoordinate ss 0 = Ret front ->
    getCoordinate ss 1 = Ret second ->
    getCoordinate ss (getSize s - 2) = Ret penult ->
    equals2D pt front = true ->
    equals2D pt second = false ->
    equals2D pt penult = false ->
    createNodeSection equals2D ss 0 pt
    = Ret (mkNodeSection (m_isA ss) (m_dimension ss) (m_id ss) (m_ringId ss)
             (m_parentPolygonal ss) true (Some penult) pt (Some second))
    /\ createNodeSection equals2D ss (getSize s - 2) pt
       = createNodeSection equals2D ss 0 pt.
Proof.
  intros ss s pt front second penult Ha Hn Hcl G0 G1 Gp Ef Es Ep.
  assert (V0 : validSegment s 0) by (unfold validSegment; lia).
  assert (Vl : validSegment s (getSize s - 2)) by (unfold validSegment; lia).
  destruct (getCoordinate_in_range ss s (getSize s - 1) Ha)
    as [back Gb]; [lia |].
  assert (Hfb : equals2D front back = true).
  { pose proof (isClosed_getCoordinate equals2D ss s front back Ha G0 Gb) as H.
    congruence. }
  assert (Eb : equals2D pt back = true)
    by exact (equals2D_trans _ _ _ Ef Hfb).
  destruct (getCoordinate_in_range ss s
              (if 0 <? getSize s - 2 then 0 + 2 else 1) Ha)
    as [following Hf]; [destruct (Z.ltb_spec 0 (getSize s - 2)); lia |].
  destruct (getCoordinate_in_range ss s
              (if getSize s - 2 =? 0 then getSize s - 2 else getSize s - 2 - 1)
              Ha)
    as [before Hb]; [destruct (Z.eqb_spec (getSize s - 2) 0); lia |].
  assert (Gb' : getCoordinate ss (getSize s - 2 + 1) = Ret back)
    by (replace (getSize s - 2 + 1) with (getSize s - 1) by lia; exact Gb).
  assert (G1' : getCoordinate ss
                  (if getSize s - 2 <? getSize s - 2 then getSize s - 2 + 2
                   else 1) = Ret second)
    by (rewrite Z.ltb_irrefl; exact G1).
  assert (first : createNodeSection equals2D ss 0 pt
            = Ret (mkNodeSection (m_isA ss) (m_dimension ss) (m_id ss)
                     (m_ringId ss) (m_parentPolygonal ss) true (Some penult)
                     pt (Some second))).
  { rewrite (createNodeSection_body equals2D ss s 0 pt front second penult
               following true Ha V0 G0 G1 Gp Hf Hcl).
    rewrite (equals2D_sym front pt), (equals2D_sym second pt), Ef, Es.
    reflexivity. }
  split; [exact first |].
  rewrite first.
  rewrite (createNodeSection_body equals2D ss s (getSize s - 2) pt penult back
             before second true Ha Vl Gp Gb' Hb G1' Hcl).
  rewrite (equals2D_sym penult pt), (equals2D_sym back pt), Ep, Eb.
  rewrite Z.ltb_irrefl. reflexivity.
Qed.

Lemma hasRepeatedPoints_nth s :
  hasRepeatedPoints equals2D s = false ->
  forall (i : nat) (a b : CoordinateXY),
    nth_error s i = Some a -> nth_error s (S i) = Some b ->
    equals2D a b = false.
Proof.
  induction s as [| p r IH]; intros Hno i a b Hi Hj.
  - destruct i; discriminate.
  - destruct r as [| q r']; [destruct i; discriminate |].
    change (equals2D p q || hasRepeatedPoints equals2D (q :: r') = false) in Hno.
    apply orb_false_iff in Hno. destruct Hno as [E Hno].
    destruct i as [| i].
    + simpl in Hi, Hj. congruence.
    + simpl in Hi. change (nth_error (q :: r') (S i) = Some b) in Hj.
      exact (IH Hno i a b Hi Hj).
Qed.

Lemma hasRepeatedPoints_getAt s (i : Z) (a b : CoordinateXY) :
  hasRepeatedPoints equals2D s = false ->
  getAt s i = Ret a -> getAt s (i + 1) = Ret b ->
  equals2D a b = false.
Proof.
  intros Hno Ga Gb.
  apply getAt_Ret in Ga. destruct Ga as [Hi Na].
  apply getAt_Ret in Gb. destruct Gb as [_ Nb].
  replace (Z.to_nat (i + 1)) with (S (Z.to_nat i)) in Nb by lia.
  exact (hasRepeatedPoints_nth s Hno _ a b Na Nb).
Qed.

(** X5. On a walk without consecutive 2D-equal points, as [removeRepeated]
    leaves it, a neighbour is never the query point again: whatever
    [prevVertex] or [nextVertex] returns for a valid segment differs from
    the point. *)
Theorem neighbours_differ_from_point :
  forall ss s (segIndex : Z) pt (v : CoordinateXY),
    activeSeq ss = Ret s ->
    validSegment s segIndex ->
    hasRepeatedPoints equals2D s = false ->
    (prevVertex equals2D ss segIndex pt = Ret (Some v) ->
       equals2D v pt = false)
    /\ (nextVertex equals2D ss segIndex pt = Ret (Some v) ->
       equals2D v pt = false).
Proof.
  intros ss s segIndex pt v Ha Hv Hno.
  pose proof Hv as [Hlo [Hhi Hfit]].
  destruct (isClosed_defined equals2D ss s Ha) as [closed Hcl]; [lia |].
  destruct (getCoordinate_in_range ss s 0 Ha) as [front G0]; [lia |].
  destruct (getCoordinate_in_range ss s (getSize s - 1) Ha) as [back Gl];
    [lia |].
  destruct (getCoordinate_in_range ss s segIndex Ha) as [c0 H0]; [lia |].
  destruct (getCoordinate_in_range ss s (segIndex + 1) Ha) as [c1 H1]; [lia |].
  assert (Hfb : equals2D front back = closed).
  { pose proof (isClosed_getCoordinate equals2D ss s front back Ha G0 Gl) as H.
    congruence. }
  assert (step : forall (i : Z) (p q : CoordinateXY),
            getCoordinate ss i = Ret p -> getCoordinate ss (i + 1) = Ret q ->
            equals2D p q = false).
  { intros i p q Gp Gq.
    rewrite (getCoordinate_active ss s i Ha) in Gp.
    rewrite (getCoordinate_active ss s (i + 1) Ha) in Gq.
    exact (hasRepeatedPoints_getAt s i p q Hno Gp Gq). }
  split.
  - destruct (prevVertex_body equals2D ss s segIndex pt c0 closed Ha Hv H0 Hcl)
      as [before [Hb Hp]].
    rewrite Hp. destruct (equals2D c0 pt) eqn:E0; simpl.
    + assert (Hbefore : (0 <? segIndex) || closed = true ->
                        equals2D before pt = false).
      { intros Hcase.
        rewrite <- (equals2D_congr_r equals2D equals2D_sym equals2D_trans
                      before c0 pt E0).
        destruct (Z.eqb_spec segIndex 0) as [-> | Hne].
        - simpl in Hcase. rewrite Hcase in Hfb.
          assert (c0 = front) by congruence. subst c0.
          rewrite (equals2D_congr_r equals2D equals2D_sym equals2D_trans
                     before front back Hfb).
          apply (step (getSize s - 2)); [exact Hb |].
          replace (getSize s - 2 + 1) with (getSize s - 1) by lia. exact Gl.
        - apply (step (segIndex - 1)); [exact Hb |].
          replace (segIndex - 1 + 1) with segIndex by lia. exact H0. }
      destruct (0 <? segIndex); simpl in Hbefore.
      * intros H. injection H as <-. apply Hbefore. reflexivity.
      * destruct closed; [| discriminate].
        intros H. injection H as <-. apply Hbefore. reflexivity.
    + intros H. injection H as <-. exact E0.
  - destruct (nextVertex_body equals2D ss s segIndex pt c1 closed Ha Hv H1 Hcl)
      as [following [Hf Hn]].
    rewrite Hn. destruct (equals2D c1 pt) eqn:E1; simpl.
    + assert (Hfollowing : (segIndex <? getSize s - 2) || closed = true ->
                           equals2D following pt = false).
      { intros Hcase.
        rewrite <- (equals2D_congr_r equals2D equals2D_sym equals2D_trans
                      following c1 pt E1).
        rewrite equals2D_sym.
        destruct (Z.ltb_spec segIndex (getSize s - 2)) as [Hin | Hfinal].
        - apply (step (segIndex + 1)); [exact H1 |].
          replace (segIndex + 1 + 1) with (segIndex + 2) by lia. exact Hf.
        - simpl in Hcase. rewrite Hcase in Hfb.
          assert (segIndex + 1 = getSize s - 1) by lia.
          assert (c1 = back) by congruence. subst c1.
          rewrite equals2D_sym in Hfb.
          rewrite (equals2D_congr_l equals2D equals2D_sym equals2D_trans
                     back front following Hfb).
          apply (step 0); [exact G0 | exact Hf]. }
      destruct (segIndex <? getSize s - 2); simpl in Hfollowing.
      * intros H. injection H as <-. apply Hfollowing. reflexivity.
      * destruct closed; [| discriminate].
        intros H. injection H as <-. apply Hfollowing. reflexivity.
    + intros H. injection H as <-. exact E1.
Qed.

End AdjacentSegments.

Section OpenLines.

Context {CoordinateXY : Type}.
Variable equals2D : CoordinateXY -> CoordinateXY -> bool.

Implicit Types (ss : RelateSegmentString CoordinateXY)
               (s : list CoordinateXY)
               (pt : CoordinateXY).

Hypothesis equals2D_refl : forall a : CoordinateXY, equals2D a a = true.
Hypothesis equals2D_sym :
  forall a b : CoordinateXY, equals2D a b = equals2D b a.

Lemma line_claimsOfSegment ss s (v : CoordinateXY) (k i : nat) :
  activeSeq ss = Ret s ->
  2 <= getSize s <= SIZE_MAX ->
  isClosed equals2D ss = Ret false ->
  distinct2D equals2D s = true ->
  nth_error s k = Some v ->
  (i < length s - 1)%nat ->
  claimsOfSegment equals2D ss v i
  = if Nat.eqb i (if Nat.eqb k (length s - 1) then length s - 2 else k)%nat
    then 1%nat else 0%nat.
Proof.
  intros Ha Hn Hcl Hd Hk Hi.
  assert (Hklt : (k < length s)%nat) by (apply nth_error_Some; congruence).
  destruct (nth_error s i) as [c0 |] eqn:N0;
    [| apply nth_error_None in N0; lia].
  destruct (nth_error s (i + 1)) as [c1 |] eqn:N1;
    [| apply nth_error_None in N1; lia].
  assert (G0 : getCoordinate ss (Z.of_nat i) = Ret c0)
    by (rewrite (getCoordinate_active ss s _ Ha), getAt_of_nat, N0;
        reflexivity).
  assert (G1 : getCoordinate ss (Z.of_nat i + 1) = Ret c1).
  { replace (Z.of_nat i + 1) with (Z.of_nat (i + 1)) by lia.
    rewrite (getCoordinate_active ss s _ Ha), getAt_of_nat, N1. reflexivity. }
  assert (Hv : validSegment s (Z.of_nat i))
    by (unfold validSegment, getSize in *; lia).
  unfold claimsOfSegment, claim. rewrite G0, G1.
  rewrite !(isContainingSegment_body equals2D ss s (Z.of_nat i) _ c0 c1 false
              Ha Hv G0 G1 Hcl).
  rewrite (equals2D_refl c0), (equals2D_refl c1).
  rewrite (distinct2D_eqb equals2D equals2D_refl equals2D_sym s Hd
             (i + 1) i c1 c0 N1 N0).
  rewrite (distinct2D_eqb equals2D equals2D_refl equals2D_sym s Hd
             i k c0 v N0 Hk).
  rewrite (distinct2D_eqb equals2D equals2D_refl equals2D_sym s Hd
             (i + 1) k c1 v N1 Hk).
  replace (Nat.eqb (i + 1) i) with false by (symmetry; apply Nat.eqb_neq; lia).
  simpl. unfold getSize in *.
  destruct (Z.eqb_spec (Z.of_nat i) (Z.of_nat (length s) - 2)),
    (Nat.eqb_spec i k), (Nat.eqb_spec (i + 1) k),
    (Nat.eqb_spec k (length s - 1));
    try lia;
    match goal with
    | |- context [Nat.eqb ?a ?b] => destruct (Nat.eqb_spec a b)
    end; simpl; lia.
Qed.

(** X6. On an open line of at least two points whose vertices are pairwise
    2D-distinct, every vertex is claimed exactly once over all segments and
    both endpoint queries of each: a vertex other than the last by the
    segment that starts at it, the last vertex by the final segment. *)
Theorem line_vertex_claimed_once :
  forall ss s (k : nat) (v : CoordinateXY),
    activeSeq ss = Ret s ->
    2 <= getSize s <= SIZE_MAX ->
    distinct2D equals2D s = true ->
    nth_error s k = Some v ->
    isClosed equals2D ss = Ret false
    /\ claims equals2D ss v = Ret 1%nat
    /\ isContainingSegment equals2D ss
         (if Nat.eqb k (length s - 1) then getSize s - 2 else Z.of_nat k) v
       = Ret true.
Proof.
  intros ss s k v Ha Hn Hd Hk.
  assert (Hklt : (k < length s)%nat) by (apply nth_error_Some; congruence).
  assert (Hlen : (2 <= length s)%nat) by (unfold getSize in Hn; lia).
  destruct (nth_error s 0) as [front |] eqn:Nf;
    [| apply nth_error_None in Nf; lia].
  destruct (nth_error s (length s - 1)) as [back |] eqn:Nb;
    [| apply nth_error_None in Nb; lia].
  assert (Hcl : isClosed equals2D ss = Ret false).
  { destruct (isClosed_defined equals2D ss s Ha) as [closed Hc]; [lia |].
    rewrite Hc. f_equal.
    rewrite <- (isClosed_nth equals2D ss s closed Ha Hc front back Nf Nb).
    rewrite (distinct2D_eqb equals2D equals2D_refl equals2D_sym s Hd
               0 (length s - 1) front back Nf Nb).
    apply Nat.eqb_neq. lia. }
  split; [exact Hcl |]. split.
  - unfold claims. rewrite (size_active _ _ Ha). simpl.
    replace (Z.to_nat (getSize s - 1)) with (length s - 1)%nat
      by (unfold getSize; lia).
    rewrite (map_ext_in _
               (fun i => if Nat.eqb i (if Nat.eqb k (length s - 1)
                                       then length s - 2 else k)%nat
                         then 1%nat else 0%nat)).
    + rewrite list_sum_indicator.
      assert (Hk' : ((if Nat.eqb k (length s - 1) then length s - 2 else k)
                     < length s - 1)%nat)
        by (destruct (Nat.eqb_spec k (length s - 1)); lia).
      destruct (Nat.ltb_spec
                  (if Nat.eqb k (length s - 1) then length s - 2 else k)%nat
                  (0 + (length s - 1))); [reflexivity | lia].
    + intros i Hin. apply in_seq in Hin.
      apply (line_claimsOfSegment ss s v k i Ha Hn Hcl Hd Hk). lia.
  - set (i := if Nat.eqb k (length s - 1) then (length s - 2)%nat else k).
    assert (Hi : (i < length s - 1)%nat)
      by (subst i; destruct (Nat.eqb_spec k (length s - 1)); lia).
    replace (if Nat.eqb k (length s - 1) then getSize s - 2 else Z.of_nat k)
      with (Z.of_nat i)
      by (subst i; unfold getSize;
          destruct (Nat.eqb_spec k (length s - 1)); lia).
    destruct (nth_error s i) as [c0 |] eqn:N0;
      [| apply nth_error_None in N0; lia].
    destruct (nth_error s (i + 1)) as [c1 |] eqn:N1;
      [| apply nth_error_None in N1; lia].
    assert (G0 : getCoordinate ss (Z.of_nat i) = Ret c0)
      by (rewrite (getCoordinate_active ss s _ Ha), getAt_of_nat, N0;
          reflexivity).
    assert (G1 : getCoordinate ss (Z.of_nat i + 1) = Ret c1).
    { replace (Z.of_nat i + 1) with (Z.of_nat (i + 1)) by lia.
      rewrite (getCoordinate_active ss s _ Ha), getAt_of_nat, N1.
      reflexivity. }
    assert (Hv : validSegment s (Z.of_nat i))
      by (unfold validSegment, getSize in *; lia).
    rewrite (isContainingSegment_body equals2D ss s (Z.of_nat i) v c0 c1 false
               Ha Hv G0 G1 Hcl).
    rewrite (distinct2D_eqb equals2D equals2D_refl equals2D_sym s Hd
               k i v c0 Hk N0).
    rewrite (distinct2D_eqb equals2D equals2D_refl equals2D_sym s Hd
               k (i + 1) v c1 Hk N1).
    subst i. unfold getSize.
    destruct (Nat.eqb_spec k (length s - 1)) as [Hlast | Hnot].
    + replace (Nat.eqb k (length s - 2)) with false
        by (symmetry; apply Nat.eqb_neq; lia).
      replace (Nat.eqb k (length s - 2 + 1)) with true
        by (symmetry; apply Nat.eqb_eq; lia).
      simpl. f_equal. apply Z.eqb_eq. lia.
    + rewrite Nat.eqb_refl. reflexivity.
Qed.

End OpenLines.

Section Reversal.

Context {CoordinateXY : Type}.
Variable equals2D : CoordinateXY -> CoordinateXY -> bool.

Implicit Types (ss : RelateSegmentString CoordinateXY)
               (s : list CoordinateXY)
               (pt : CoordinateXY).

Hypothesis equals2D_sym :
  forall a b : CoordinateXY, equals2D a b = equals2D b a.

Lemma getSize_rev s : getSize (rev s) = getSize s.
Proof. unfold getSize. rewrite length_rev. reflexivity. Qed.

Lemma getAt_rev s (i : Z) :
  0 <= i < getSize s -> getAt (rev s) i = getAt s (getSize s - 1 - i).
Proof.
  unfold getSize. intros Hi.
  replace i with (Z.of_nat (Z.to_nat i)) at 1 by lia.
  replace (Z.of_nat (length s) - 1 - i)
    with (Z.of_nat (length s - S (Z.to_nat i))) by lia.
  rewrite !getAt_of_nat, nth_error_rev.
  destruct (Nat.ltb_spec (Z.to_nat i) (length s)); [reflexivity | lia].
Qed.

Lemma prevVertex_of_reversed ss ss' s (segIndex : Z) pt :
  activeSeq ss = Ret s ->
  activeSeq ss' = Ret (rev s) ->
  validSegment s segIndex ->
  prevVertex equals2D ss segIndex pt
  = nextVertex equals2D ss' (getSize s - 2 - segIndex) pt.
Proof.
  intros Ha Ha' Hv. pose proof Hv as [Hlo [Hhi Hfit]].
  assert (Hv' : validSegment (rev s) (getSize s - 2 - segIndex))
    by (unfold validSegment; rewrite getSize_rev; lia).
  destruct (getCoordinate_in_range ss s 0 Ha) as [front G0]; [lia |].
  destruct (getCoordinate_in_range ss s (getSize s - 1) Ha) as [back Gl];
    [lia |].
  destruct (getCoordinate_in_range ss s segIndex Ha) as [c0 H0]; [lia |].
  pose proof (isClosed_getCoordinate equals2D ss s front back Ha G0 Gl) as Hcl.
  assert (through : forall i : Z, 0 <= i < getSize s ->
            getCoordinate ss' i = getCoordinate ss (getSize s - 1 - i)).
  { intros i Hi.
    rewrite (getCoordinate_active ss' (rev s) i Ha'),
      (getCoordinate_active ss s _ Ha).
    apply getAt_rev. exact Hi. }
  assert (Hcl' : isClosed equals2D ss' = Ret (equals2D front back)).
  { rewrite (equals2D_sym front back).
    apply (isClosed_getCoordinate equals2D ss' (rev s) back front Ha').
    - rewrite through by lia. replace (getSize s - 1 - 0) with (getSize s - 1)
        by lia. exact Gl.
    - rewrite getSize_rev, through by lia.
      replace (getSize s - 1 - (getSize s - 1)) with 0 by lia. exact G0. }
  assert (H1' : getCoordinate ss' (getSize s - 2 - segIndex + 1) = Ret c0).
  { rewrite through by lia.
    replace (getSize s - 1 - (getSize s - 2 - segIndex + 1)) with segIndex
      by lia. exact H0. }
  destruct (prevVertex_body equals2D ss s segIndex pt c0 _ Ha Hv H0 Hcl)
    as [before [Hb Hp]].
  destruct (nextVertex_body equals2D ss' (rev s) (getSize s - 2 - segIndex) pt
              c0 _ Ha' Hv' H1' Hcl')
    as [following [Hf Hn]].
  rewrite getSize_rev in Hf, Hn.
  assert (Hsame : following = before).
  { destruct (Z.eqb_spec segIndex 0) as [-> | Hne].
    - destruct (Z.ltb_spec (getSize s - 2 - 0) (getSize s - 2)); [lia |].
      rewrite through in Hf by lia.
      replace (getSize s - 1 - 1) with (getSize s - 2) in Hf by lia.
      congruence.
    - destruct (Z.ltb_spec (getSize s - 2 - segIndex) (getSize s - 2));
        [| lia].
      rewrite through in Hf by lia.
      replace (getSize s - 1 - (getSize s - 2 - segIndex + 2))
        with (segIndex - 1) in Hf by lia.
      congruence. }
  subst following. rewrite Hp, Hn.
  destruct (Z.ltb_spec 0 segIndex),
    (Z.ltb_spec (getSize s - 2 - segIndex) (getSize s - 2));
    try lia; reflexivity.
Qed.

(** X7. Reversing a walk swaps the two neighbours: segment [i] of the walk
    is segment [size - 2 - i] of the reversed walk, and for every valid
    segment and every point [prevVertex] on the one is [nextVertex] on the
    other, and the other way round. *)
Theorem neighbours_swap_under_reversal :
  forall ss ss' s (segIndex : Z) pt,
    activeSeq ss = Ret s ->
    activeSeq ss' = Ret (rev s) ->
    validSegment s segIndex ->
    prevVertex equals2D ss segIndex pt
    = nextVertex equals2D ss' (getSize s - 2 - segIndex) pt
    /\ nextVertex equals2D ss segIndex pt
       = prevVertex equals2D ss' (getSize s - 2 - segIndex) pt.
Proof.
  intros ss ss' s segIndex pt Ha Ha' Hv. split.
  - exact (prevVertex_of_reversed ss ss' s segIndex pt Ha Ha' Hv).
  - pose proof Hv as [Hlo [Hhi Hfit]].
    assert (Hv' : validSegment (rev s) (getSize s - 2 - segIndex))
      by (unfold validSegment; rewrite getSize_rev; lia).
    assert (Hback : activeSeq ss = Ret (rev (rev s)))
      by (rewrite rev_involutive; exact Ha).
    rewrite (prevVertex_of_reversed ss' ss (rev s) _ pt Ha' Hback Hv').
    rewrite getSize_rev.
    replace (getSize s - 2 - (getSize s - 2 - segIndex)) with segIndex by lia.
    reflexivity.
Qed.

End Reversal.

Section Normalising.

Context {CoordinateXY : Type}.
Variable equals2D : CoordinateXY -> CoordinateXY -> bool.
Variable isCCW : list CoordinateXY -> bool.

Implicit Types (ss : RelateSegmentString CoordinateXY)
               (s : list CoordinateXY).

(** X8. [removeRepeated] returns on every walk whose sequence pointer is
    live, and leaves a live walk: its active sequence is the de-duplicated
    one, which has no two consecutive 2D-equal points; the caller's sequence
    and the walk's context (operand, dimension, ids, polygon, geometry) are
    as before. *)
Theorem removeRepeated_outcome :
  forall ss s,
    activeSeq ss = Ret s ->
    exists ss' : RelateSegmentString CoordinateXY,
      removeRepeated equals2D ss = Ret (tt, ss')
      /\ activeSeq ss' = Ret (removeRepeatedPoints equals2D s)
      /\ hasRepeatedPoints equals2D (removeRepeatedPoints equals2D s) = false
      /\ pts ss' = pts ss
      /\ isA ss' = isA ss
      /\ m_dimension ss' = m_dimension ss
      /\ m_id ss' = m_id ss
      /\ m_ringId ss' = m_ringId ss
      /\ getPolygonal ss' = getPolygonal ss
      /\ getGeometry ss' = getGeometry ss.
Proof.
  intros ss s Ha.
  unfold removeRepeated, pbind. rewrite (readSeq_active ss s Ha).
  destruct (hasRepeatedPoints equals2D s) eqn:Hrep; simpl.
  - rewrite (readSeq_active ss s Ha). simpl. eexists. split; [reflexivity |].
    split; [reflexivity |].
    split; [apply hasRepeatedPoints_removeRepeatedPoints |].
    repeat split.
  - exists ss. split; [reflexivity |].
    rewrite (removeRepeatedPoints_fixed equals2D s Hrep).
    split; [exact Ha |]. split; [exact Hrep |]. repeat split.
Qed.

(** X9. [orientAndRemoveRepeated] on a walk that still borrows its
    sequence, or that does not meet both conditions at once, returns and
    leaves a live walk.  Its active sequence is the reversed sequence when
    a flip is needed (repeated points or not), else the de-duplicated one
    when there are repeated points, else the sequence as it was; the
    caller's sequence and the walk's context are as before. *)
Theorem orientAndRemoveRepeated_outcome :
  forall ss s (orientCW : bool),
    activeSeq ss = Ret s ->
    seq ss = ToCaller
    \/ Bool.eqb orientCW (isCCW s) && hasRepeatedPoints equals2D s = false ->
    exists ss' : RelateSegmentString CoordinateXY,
      orientAndRemoveRepeated equals2D isCCW orientCW ss = Ret (tt, ss')
      /\ activeSeq ss'
         = Ret (if Bool.eqb orientCW (isCCW s) then rev s
                else if hasRepeatedPoints equals2D s
                     then removeRepeatedPoints equals2D s
                     else s)
      /\ pts ss' = pts ss
      /\ isA ss' = isA ss
      /\ m_dimension ss' = m_dimension ss
      /\ m_id ss' = m_id ss
      /\ m_ringId ss' = m_ringId ss
      /\ getPolygonal ss' = getPolygonal ss
      /\ getGeometry ss' = getGeometry ss.
Proof.
  intros ss s orientCW Ha Hcase.
  destruct ss as [p st sq a d i r poly parent].
  unfold activeSeq in Ha. cbn [seq pts csStore] in Ha, Hcase.
  unfold orientAndRemoveRepeated, pbind, readSeq, activeSeq.
  destruct sq; cbn [seq pts csStore].
  - injection Ha as ->.
    destruct (Bool.eqb orientCW (isCCW s)),
      (hasRepeatedPoints equals2D s); simpl;
      eexists; repeat split.
  - destruct st as [s' |]; [| discriminate]. injection Ha as ->.
    destruct Hcase as [Hc | Hc]; [discriminate |].
    destruct (Bool.eqb orientCW (isCCW s)),
      (hasRepeatedPoints equals2D s); try discriminate; simpl;
      eexists; repeat split.
  - discriminate.
Qed.

Hypothesis equals2D_sym :
  forall a b : CoordinateXY, equals2D a b = equals2D b a.

(** X10. Two opposite requests in a row on a borrowed sequence with a
    repeated point: when the first request needs a flip and reversal
    inverts the orientation test, the second call meets both conditions on
    a sequence the walk owns, releases it by storing the de-duplicated
    sequence and then clones it through the stale pointer: the call has no
    defined outcome. *)
Theorem orientAndRemoveRepeated_opposite_requests :
  forall ss (orientCW : bool),
    seq ss = ToCaller ->
    hasRepeatedPoints equals2D (pts ss) = true ->
    orientCW = isCCW (pts ss) ->
    isCCW (rev (pts ss)) = negb (isCCW (pts ss)) ->
    (orientAndRemoveRepeated equals2D isCCW orientCW ;;;
     orientAndRemoveRepeated equals2D isCCW (negb orientCW)) ss
    = Undefined.
Proof.
  intros ss orientCW Hseq Hrep Hcw Hrev.
  destruct ss as [p st sq a d i r poly parent].
  cbn [seq pts] in Hseq, Hrep, Hcw, Hrev. subst sq orientCW.
  assert (first : orientAndRemoveRepeated equals2D isCCW (isCCW p)
                    (mkRelateSegmentString CoordinateXY p st ToCaller a d i r
                       poly parent)
                  = Ret (tt, mkRelateSegmentString CoordinateXY p
                               (Some (rev p)) ToStore a d i r poly parent)).
  { unfold orientAndRemoveRepeated, pbind, readSeq, activeSeq.
    cbn [seq pts]. rewrite Hrep, eqb_reflx. reflexivity. }
  unfold pbind at 1. rewrite first.
  apply (orientAndRemoveRepeated_both_owned equals2D isCCW _ (rev p)).
  - reflexivity.
  - reflexivity.
  - rewrite (hasRepeatedPoints_rev equals2D equals2D_sym). exact Hrep.
  - symmetry. exact Hrev.
Qed.

(** X11. [removeRepeated] followed by [orientAndRemoveRepeated] does what
    the second alone misses: the walk is left with the de-duplicated
    sequence, reversed when its orientation is not the requested one, and
    that sequence has no two consecutive 2D-equal points. *)
Theorem removeRepeated_then_orient :
  forall ss s (orientCW : bool),
    activeSeq ss = Ret s ->
    exists normal : list CoordinateXY,
      activeAfter (removeRepeated equals2D ;;;
                   orientAndRemoveRepeated equals2D isCCW orientCW) ss
      = Ret normal
      /\ normal = (if Bool.eqb orientCW
                        (isCCW (removeRepeatedPoints equals2D s))
                   then rev (removeRepeatedPoints equals2D s)
                   else removeRepeatedPoints equals2D s)
      /\ hasRepeatedPoints equals2D normal = false.
Proof.
  intros ss s orientCW Ha.
  pose proof (hasRepeatedPoints_removeRepeatedPoints equals2D s) as Hno.
  assert (H1 : activeAfter (removeRepeated equals2D) ss
               = Ret (removeRepeatedPoints equals2D s)).
  { rewrite (removeRepeated_active equals2D ss s Ha).
    destruct (hasRepeatedPoints equals2D s) eqn:E; [reflexivity |].
    rewrite (removeRepeatedPoints_fixed equals2D s E). reflexivity. }
  eexists. split; [| split; [reflexivity |]].
  - unfold activeAfter, after, pbind in *.
    destruct (removeRepeated equals2D ss) as [[[] ss1] |]; [| discriminate].
    simpl in H1.
    pose proof (orientAndRemoveRepeated_no_repeats equals2D isCCW ss1 _
                  orientCW H1 Hno) as H2.
    unfold activeAfter, after in H2. exact H2.
  - destruct (Bool.eqb orientCW (isCCW (removeRepeatedPoints equals2D s)));
      [rewrite (hasRepeatedPoints_rev equals2D equals2D_sym) |]; exact Hno.
Qed.

End Normalising.

(** ** The further properties at concrete walks *)

(** X1 on the line (0,0), (5,0), (10,0), segment 0 and the interior point
    (2,0). *)
Lemma createNodeSection_on_valid_segment_witness :
  exists ns : NodeSection Grid.XY,
    createNodeSection Grid.equals2D (Grid.line Samples.threePoints) 0 (Grid.P 2 0)
    = Ret ns
    /\ ns_isNodeAtVertex ns = false
    /\ ns_prev ns = Some (Grid.P 0 0)
    /\ ns_nodePt ns = Grid.P 2 0
    /\ ns_next ns = Some (Grid.P 5 0).
Proof.
  assert (V : validSegment Samples.threePoints 0) by valid_segment.
  destruct (createNodeSection_on_valid_segment Grid.equals2D
              (Grid.line Samples.threePoints) Samples.threePoints 0
              (Grid.P 2 0) (Grid.P 0 0) (Grid.P 5 0) eq_refl V eq_refl eq_refl)
    as [ns [Hns [_ [_ [_ [_ [_ [Hpt [Hat [_ [_ [Hprev Hnext]]]]]]]]]]]].
  exists ns. split; [exact Hns |]. split; [exact Hat |].
  split; [exact (Hprev eq_refl) |]. split; [exact Hpt | exact (Hnext eq_refl)].
Defined.

(** X2 on the line (0,0), (5,0). *)
Lemma sentinel_index_out_of_range_witness :
  createNodeSection Grid.equals2D (Grid.line Samples.twoPoints)
    INDEX_UNKNOWN (Grid.P 5 0) = Undefined
  /\ isContainingSegment Grid.equals2D (Grid.line Samples.twoPoints)
       INDEX_UNKNOWN (Grid.P 5 0) = Undefined
  /\ prevVertex Grid.equals2D (Grid.line Samples.twoPoints)
       INDEX_UNKNOWN (Grid.P 5 0) = Undefined.
Proof.
  apply (sentinel_index_out_of_range Grid.equals2D
           (Grid.line Samples.twoPoints) Samples.twoPoints (Grid.P 5 0) eq_refl).
  unfold getSize, SIZE_MAX. simpl. lia.
Defined.

(** X3 on the line (0,0), (5,0), (10,0) and its middle vertex. *)
Lemma createNodeSection_shared_vertex_witness :
  createNodeSection Grid.equals2D (Grid.line Samples.threePoints) 0 (Grid.P 5 0)
  = Ret (mkNodeSection true Dimension.L 0 (-1) None true
           (Some (Grid.P 0 0)) (Grid.P 5 0) (Some (Grid.P 10 0)))
  /\ createNodeSection Grid.equals2D (Grid.line Samples.threePoints) (0 + 1)
       (Grid.P 5 0)
     = createNodeSection Grid.equals2D (Grid.line Samples.threePoints) 0
         (Grid.P 5 0).
Proof.
  assert (V0 : validSegment Samples.threePoints 0) by valid_segment.
  assert (V1 : validSegment Samples.threePoints (0 + 1)) by valid_segment.
  exact (createNodeSection_shared_vertex Grid.equals2D
           GridFacts.grid_equals2D_sym
           (Grid.line Samples.threePoints) Samples.threePoints 0 (Grid.P 5 0)
           (Grid.P 0 0) (Grid.P 5 0) (Grid.P 10 0)
           eq_refl V0 V1 eq_refl eq_refl eq_refl eq_refl eq_refl eq_refl).
Defined.

(** X4 on the closed square and its first vertex. *)
Lemma createNodeSection_closing_vertex_witness :
  createNodeSection Grid.equals2D (Grid.ring Samples.cleanSquare) 0 (Grid.P 0 0)
  = Ret (mkNodeSection true Dimension.A 0 0 (Some 7) true
           (Some (Grid.P 0 10)) (Grid.P 0 0) (Some (Grid.P 10 0)))
  /\ createNodeSection Grid.equals2D (Grid.ring Samples.cleanSquare)
       (getSize Samples.cleanSquare - 2) (Grid.P 0 0)
     = createNodeSection Grid.equals2D (Grid.ring Samples.cleanSquare) 0
         (Grid.P 0 0).
Proof.
  assert (Hn : 3 <= getSize Samples.cleanSquare <= SIZE_MAX)
    by (unfold getSize, SIZE_MAX; simpl; lia).
  exact (createNodeSection_closing_vertex Grid.equals2D
           GridFacts.grid_equals2D_sym GridFacts.grid_equals2D_trans
           (Grid.ring Samples.cleanSquare) Samples.cleanSquare (Grid.P 0 0)
           (Grid.P 0 0) (Grid.P 10 0) (Grid.P 0 10)
           eq_refl Hn eq_refl eq_refl eq_refl eq_refl eq_refl eq_refl eq_refl).
Defined.

(** X5 on the closed square, segment 0 and its start vertex: the previous
    vertex (0,10) and the next vertex (10,0) differ from (0,0). *)
Lemma neighbours_differ_from_point_witness :
  (prevVertex Grid.equals2D (Grid.ring Samples.cleanSquare) 0 (Grid.P 0 0)
   = Ret (Some (Grid.P 0 10))
   /\ Grid.equals2D (Grid.P 0 10) (Grid.P 0 0) = false)
  /\ (nextVertex Grid.equals2D (Grid.ring Samples.cleanSquare) 0 (Grid.P 0 0)
      = Ret (Some (Grid.P 10 0))
      /\ Grid.equals2D (Grid.P 10 0) (Grid.P 0 0) = false).
Proof.
  assert (V : validSegment Samples.cleanSquare 0) by valid_segment.
  split; (split; [reflexivity |]).
  - exact (proj1 (neighbours_differ_from_point Grid.equals2D
                    GridFacts.grid_equals2D_sym GridFacts.grid_equals2D_trans
                    (Grid.ring Samples.cleanSquare) Samples.cleanSquare 0
                    (Grid.P 0 0) (Grid.P 0 10) eq_refl V eq_refl) eq_refl).
  - exact (proj2 (neighbours_differ_from_point Grid.equals2D
                    GridFacts.grid_equals2D_sym GridFacts.grid_equals2D_trans
                    (Grid.ring Samples.cleanSquare) Samples.cleanSquare 0
                    (Grid.P 0 0) (Grid.P 10 0) eq_refl V eq_refl) eq_refl).
Defined.

(** X6 on the line (0,0), (5,0), (10,0) and its last vertex. *)
Lemma line_vertex_claimed_once_witness :
  isClosed Grid.equals2D (Grid.line Samples.threePoints) = Ret false
  /\ claims Grid.equals2D (Grid.line Samples.threePoints) (Grid.P 10 0)
     = Ret 1%nat
  /\ isContainingSegment Grid.equals2D (Grid.line Samples.threePoints)
       (getSize Samples.threePoints - 2) (Grid.P 10 0)
     = Ret true.
Proof.
  assert (Hn : 2 <= getSize Samples.threePoints <= SIZE_MAX)
    by (unfold getSize, SIZE_MAX; simpl; lia).
  exact (line_vertex_claimed_once Grid.equals2D
           GridFacts.grid_equals2D_refl GridFacts.grid_equals2D_sym
           (Grid.line Samples.threePoints) Samples.threePoints 2%nat
           (Grid.P 10 0) eq_refl Hn eq_refl eq_refl).
Defined.

(** X7 on the line (0,0), (5,0), (10,0) and the line over its reverse. *)
Lemma neighbours_swap_under_reversal_witness :
  prevVertex Grid.equals2D (Grid.line Samples.threePoints) 1 (Grid.P 5 0)
  = nextVertex Grid.equals2D (Grid.line (rev Samples.threePoints))
      (getSize Samples.threePoints - 2 - 1) (Grid.P 5 0)
  /\ nextVertex Grid.equals2D (Grid.line Samples.threePoints) 1 (Grid.P 5 0)
     = prevVertex Grid.equals2D (Grid.line (rev Samples.threePoints))
         (getSize Samples.threePoints - 2 - 1) (Grid.P 5 0).
Proof.
  assert (V : validSegment Samples.threePoints 1) by valid_segment.
  exact (neighbours_swap_under_reversal Grid.equals2D
           GridFacts.grid_equals2D_sym
           (Grid.line Samples.threePoints) (Grid.line (rev Samples.threePoints))
           Samples.threePoints 1 (Grid.P 5 0) eq_refl eq_refl V).
Defined.

(** X8 on the square with the repeated first vertex. *)
Lemma removeRepeated_outcome_witness :
  exists ss' : RelateSegmentString Grid.XY,
    removeRepeated Grid.equals2D (Grid.ring Grid.square) = Ret (tt, ss')
    /\ activeSeq ss' = Ret Samples.cleanSquare
    /\ pts ss' = Grid.square.
Proof.
  destruct (removeRepeated_outcome Grid.equals2D
              (Grid.ring Grid.square) Grid.square eq_refl)
    as [ss' [Hrun [Hact [_ [Hpts _]]]]].
  exists ss'. split; [exact Hrun |]. split; [exact Hact | exact Hpts].
Defined.

(** X9 on the same ring and a clockwise request. *)
Lemma orientAndRemoveRepeated_outcome_witness :
  exists ss' : RelateSegmentString Grid.XY,
    orientAndRemoveRepeated Grid.equals2D Grid.isCCW true (Grid.ring Grid.square)
    = Ret (tt, ss')
    /\ activeSeq ss' = Ret (rev Grid.square)
    /\ pts ss' = Grid.square.
Proof.
  destruct (orientAndRemoveRepeated_outcome Grid.equals2D Grid.isCCW
              (Grid.ring Grid.square) Grid.square true eq_refl
              (or_introl eq_refl))
    as [ss' [Hrun [Hact [Hpts _]]]].
  exists ss'. split; [exact Hrun |]. split; [exact Hact | exact Hpts].
Defined.

(** X10 on the same ring: a clockwise request, then a counter-clockwise
    one. *)
Lemma orientAndRemoveRepeated_opposite_requests_witness :
  (orientAndRemoveRepeated Grid.equals2D Grid.isCCW true ;;;
   orientAndRemoveRepeated Grid.equals2D Grid.isCCW (negb true))
    (Grid.ring Grid.square)
  = Undefined.
Proof.
  exact (orientAndRemoveRepeated_opposite_requests Grid.equals2D Grid.isCCW
           GridFacts.grid_equals2D_sym (Grid.ring Grid.square) true
           eq_refl eq_refl eq_refl eq_refl).
Defined.

(** X11 on the same ring and a clockwise request: the five-point clockwise
    ring. *)
Lemma removeRepeated_then_orient_witness :
  activeAfter (removeRepeated Grid.equals2D ;;;
               orientAndRemoveRepeated Grid.equals2D Grid.isCCW true)
    (Grid.ring Grid.square)
  = Ret [Grid.P 0 0; Grid.P 0 10; Grid.P 10 10; Grid.P 10 0; Grid.P 0 0].
Proof.
  destruct (removeRepeated_then_orient Grid.equals2D Grid.isCCW
              GridFacts.grid_equals2D_sym (Grid.ring Grid.square)
              Grid.square true eq_refl)
    as [normal [Hrun [Hnormal _]]].
  rewrite Hrun, Hnormal. reflexivity.
Defined.
